(** * Presence registry of govitest.go: rooms, users and lazy expiry

    A shallow embedding of the three HTTP handlers of [src/govitest.go]
    ([checkInHandler], [updatePresenceHandler], [listRoomsHandler]) as
    functions from the decoded request, the clock readings the handler
    makes and the registry state to a reply and the next registry state.
    A second part, [Module Conc], runs the check-in handler as threads
    that interleave at the granularity of its statements, with the
    registry mutex, the per-room mutexes and a heap of [Room] objects. *)

From stdpp Require Import gmap strings list fin_maps.
From Stdlib Require Import ZArith Lia.

(** ** The parts of Go's [time] package the handlers use *)

Module time.

(** [time.Duration] is an [int64] count of nanoseconds. *)
Definition Duration := Z.

(** [time.Time] is read as a point on the nanosecond line; [Add] and
    [After] are the library's and are taken to be exact. *)
Definition Time := Z.

Definition int64_min : Z := - 2 ^ 63.
Definition int64_max : Z := 2 ^ 63 - 1.

(** Two's complement wrap-around of a mathematical integer to [int64]. *)
Definition wrap64 (z : Z) : Z := ((z + 2 ^ 63) mod 2 ^ 64 - 2 ^ 63)%Z.

Definition Nanosecond : Duration := 1%Z.
Definition Second : Duration := (1000000000 * Nanosecond)%Z.
Definition Minute : Duration := (60 * Second)%Z.

(** [a * b] on [Duration]: Go's [int64] multiplication. *)
Definition mul (a b : Duration) : Duration := wrap64 (a * b).

Definition Add (t : Time) (d : Duration) : Time := (t + d)%Z.

(** [t.After(u)]: strictly later. *)
Definition After (t u : Time) : bool := (u <? t)%Z.

End time.

Bind Scope Z_scope with time.Duration time.Time.

(** ** Data model (lines 11-33) *)

Record User := mkUser {
  ID : string;
  ExpiresAt : time.Time
}.

(** [UserLock] is left out of the sequential model; [Module Conc] has it. *)
Record Room := mkRoom {
  Name : string;
  Users : gmap string User
}.

Record ConferenceAPI := mkConferenceAPI {
  Rooms : gmap string Room
}.

(** The global [api]: no rooms at start. *)
Definition api : ConferenceAPI := {| Rooms := ∅ |}.

#[global] Instance User_eq_dec : EqDecision User.
Proof. solve_decision. Defined.

(** ** Requests and replies *)

Module CheckInRequest.
Record t := mk { UserID : string; RoomID : string }.
End CheckInRequest.

Module UpdatePresenceRequest.
(** [ExpiresIn] is a Go [int] (64 bits); an absent field decodes to 0. *)
Record t := mk { UserID : string; RoomID : string; ExpiresIn : Z }.
End UpdatePresenceRequest.

Record RoomInfo := mkRoomInfo {
  RoomID : string;
  UserIDs : list string
}.

(** What a handler writes to the [http.ResponseWriter]: one of the four
    [http.Error] calls, or one of the three success bodies. *)
Inductive Reply :=
  | BadFormat                                   (* lines 46, 92 *)
  | MissingFields                               (* lines 51, 97 *)
  | RoomNotFound                                (* line 110 *)
  | UserNotFound                                (* line 118 *)
  | CheckedIn (userID roomID : string)          (* line 77 *)
  | PresenceUpdated (userID roomID : string)    (* line 126 *)
  | RoomsList (roomsInfo : list RoomInfo).      (* line 159 *)

Definition statusCode (r : Reply) : Z :=
  match r with
  | BadFormat | MissingFields => 400%Z
  | RoomNotFound | UserNotFound => 404%Z
  | CheckedIn _ _ | PresenceUpdated _ _ | RoomsList _ => 200%Z
  end.

(** The spec's [InvalidRequest]: an [http.StatusBadRequest] reply. *)
Definition InvalidRequest (r : Reply) : bool :=
  match r with
  | BadFormat | MissingFields => true
  | _ => false
  end.

Definition succeeded (r : Reply) : bool :=
  match r with
  | CheckedIn _ _ | PresenceUpdated _ _ | RoomsList _ => true
  | _ => false
  end.

(** ** checkInHandler (lines 36-78)

    [body] is the outcome of [json.NewDecoder(r.Body).Decode(&req)]
    ([None] when it returns an error), [now] the reading of [time.Now()]
    on line 55. *)

(** [5 * time.Minute] is a constant expression, evaluated exactly. *)
Definition defaultTTL : time.Duration := (5 * time.Minute)%Z.

Definition checkInHandler (body : option CheckInRequest.t) (now : time.Time)
    (s : ConferenceAPI) : Reply * ConferenceAPI :=
  match body with
  | None => (BadFormat, s)
  | Some req =>
      let userID := CheckInRequest.UserID req in
      let roomID := CheckInRequest.RoomID req in
      if decide (userID = "" ∨ roomID = "") then (MissingFields, s)
      else
        let expiresAt := time.Add now defaultTTL in
        let user := {| ID := userID; ExpiresAt := expiresAt |} in
        let room :=
          match Rooms s !! roomID with
          | Some room => room
          | None => {| Name := roomID; Users := ∅ |}
          end in
        let room := {| Name := Name room; Users := <[userID := user]> (Users room) |} in
        (CheckedIn userID roomID, {| Rooms := <[roomID := room]> (Rooms s) |})
  end.

(** ** updatePresenceHandler (lines 81-127)

    [now0] is the reading of [time.Now()] on line 101, [now1] the one on
    line 103 (made only when [ExpiresIn > 0]). *)

Definition refreshExpiry (expiresIn : Z) (now0 now1 : time.Time) : time.Time :=
  let expiresAt := time.Add now0 defaultTTL in
  if (0 <? expiresIn)%Z
  then time.Add now1 (time.mul expiresIn time.Second)
  else expiresAt.

Definition updatePresenceHandler (body : option UpdatePresenceRequest.t)
    (now0 now1 : time.Time) (s : ConferenceAPI) : Reply * ConferenceAPI :=
  match body with
  | None => (BadFormat, s)
  | Some req =>
      let userID := UpdatePresenceRequest.UserID req in
      let roomID := UpdatePresenceRequest.RoomID req in
      if decide (userID = "" ∨ roomID = "") then (MissingFields, s)
      else
        let expiresAt := refreshExpiry (UpdatePresenceRequest.ExpiresIn req) now0 now1 in
        match Rooms s !! roomID with
        | None => (RoomNotFound, s)
        | Some room =>
            match Users room !! userID with
            | None => (UserNotFound, s)
            | Some user =>
                let user := {| ID := ID user; ExpiresAt := expiresAt |} in
                let room := {| Name := Name room; Users := <[userID := user]> (Users room) |} in
                (PresenceUpdated userID roomID, {| Rooms := <[roomID := room]> (Rooms s) |})
            end
        end
  end.

(** ** listRoomsHandler (lines 130-160)

    Go leaves the order of a [range] over a map unspecified; the loops
    run over [map_to_list], one admissible order, and the theorems below
    speak of membership only.  [time.Now()] is evaluated once per visited
    entry (line 143): [clk roomID userID] is the reading made at the
    entry [userID] of room [roomID]. *)

Definition Clock := string → string → time.Time.

(** One iteration of the inner loop (lines 143-147). *)
Definition visitUser (now : string → time.Time)
    (acc : list string * gmap string User) (kv : string * User)
    : list string * gmap string User :=
  let '(activeUsers, users) := acc in
  let '(userID, user) := kv in
  if time.After (ExpiresAt user) (now userID)
  then (activeUsers ++ [userID], users)
  else (activeUsers, delete userID users).

(** The inner loop (lines 141-148) over one room's map. *)
Definition rangeUsers (now : string → time.Time) (users : gmap string User)
    : list string * gmap string User :=
  foldl (visitUser now) ([], users) (map_to_list users).

(** One iteration of the outer loop (lines 140-154); the room is held by
    pointer, so the deletions land in the registry's room. *)
Definition visitRoom (clk : Clock)
    (acc : list RoomInfo * gmap string Room) (kv : string * Room)
    : list RoomInfo * gmap string Room :=
  let '(roomsInfo, rooms) := acc in
  let '(roomID, room) := kv in
  let '(activeUsers, users) := rangeUsers (clk roomID) (Users room) in
  (roomsInfo ++ [{| RoomID := roomID; UserIDs := activeUsers |}],
   <[roomID := {| Name := Name room; Users := users |}]> rooms).

Definition rangeRooms (clk : Clock) (rooms : gmap string Room)
    : list RoomInfo * gmap string Room :=
  foldl (visitRoom clk) ([], rooms) (map_to_list rooms).

Definition listRoomsHandler (clk : Clock) (s : ConferenceAPI)
    : Reply * ConferenceAPI :=
  let '(roomsInfo, rooms) := rangeRooms clk (Rooms s) in
  (RoomsList roomsInfo, {| Rooms := rooms |}).

(** The test of line 143 on the entry [kv], [now] giving the reading. *)
Definition alive (now : string → time.Time) (kv : string * User) : Prop :=
  (now kv.1 < ExpiresAt kv.2)%Z.

#[global] Instance alive_dec now kv : Decision (alive now kv).
Proof. unfold alive. apply _. Defined.

(** A room after its eviction pass, as a filter. *)
Definition evicted (clk : Clock) (roomID : string) (room : Room) : Room :=
  {| Name := Name room; Users := filter (alive (clk roomID)) (Users room) |}.

(** The [RoomInfo] appended for a room (lines 151-154). *)
Definition infoOf (clk : Clock) (kv : string * Room) : RoomInfo :=
  {| RoomID := kv.1; UserIDs := (rangeUsers (clk kv.1) (Users kv.2)).1 |}.

(** The room infos of a reply; empty for the other replies. *)
Definition roomsOf (r : Reply) : list RoomInfo :=
  match r with RoomsList roomsInfo => roomsInfo | _ => [] end.

(** ** The server as a transition system

    One [Call] is one request together with the clock readings its
    handler makes. *)

Inductive Call :=
  | CheckIn (body : option CheckInRequest.t) (now : time.Time)
  | UpdatePresence (body : option UpdatePresenceRequest.t) (now0 now1 : time.Time)
  | ListRooms (clk : Clock).

Definition serve (c : Call) (s : ConferenceAPI) : Reply * ConferenceAPI :=
  match c with
  | CheckIn body now => checkInHandler body now s
  | UpdatePresence body now0 now1 => updatePresenceHandler body now0 now1 s
  | ListRooms clk => listRoomsHandler clk s
  end.

(** The state after a sequence of calls, oldest first. *)
Definition serveAll (cs : list Call) (s : ConferenceAPI) : ConferenceAPI :=
  foldl (λ s c, (serve c s).2) s cs.

(** The replies of a sequence of calls, oldest first. *)
Fixpoint replies (cs : list Call) (s : ConferenceAPI) : list Reply :=
  match cs with
  | [] => []
  | c :: cs => (serve c s).1 :: replies cs (serve c s).2
  end.

Definition reachable (s : ConferenceAPI) : Prop :=
  ∃ cs, s = serveAll cs api.

(** [n] check-ins of user [u] into room [r], one per clock reading. *)
Definition checkIns (u r : string) (nows : list time.Time) : list Call :=
  (λ now, CheckIn (Some (CheckInRequest.mk u r)) now) <$> nows.

(** The test of lines 50 and 96 (after the decoding test of lines 45 and
    91) on the request of a call: no body, or an empty required field. *)
Definition invalidBody (c : Call) : Prop :=
  match c with
  | CheckIn None _ | UpdatePresence None _ _ => True
  | CheckIn (Some req) _ =>
      CheckInRequest.UserID req = "" ∨ CheckInRequest.RoomID req = ""
  | UpdatePresence (Some req) _ _ =>
      UpdatePresenceRequest.UserID req = "" ∨ UpdatePresenceRequest.RoomID req = ""
  | ListRooms _ => False
  end.

#[global] Instance invalidBody_dec c : Decision (invalidBody c).
Proof. destruct c as [[?|]?|[?|]??|?]; cbn; apply _. Defined.

(** Keys agree with the fields they index: a room stored under [r] is
    named [r], an entry stored under [u] has id [u]. *)
Definition key_consistent (s : ConferenceAPI) : Prop :=
  map_Forall (λ r room,
    Name room = r ∧ map_Forall (λ u e, ID e = u) (Users room)) (Rooms s).

(** The room id a call registers: that of a check-in that passes the
    tests of lines 45 and 50. *)
Definition roomCheckedIn (c : Call) : option string :=
  match c with
  | CheckIn (Some req) _ =>
      if decide (CheckInRequest.UserID req = "" ∨ CheckInRequest.RoomID req = "")
      then None else Some (CheckInRequest.RoomID req)
  | _ => None
  end.

(** The room ids registered by a sequence of calls. *)
Definition roomsCheckedIn (cs : list Call) : gset string :=
  list_to_set (omap roomCheckedIn cs).

(** The user ids a room holds. *)
Definition userIDsOf (room : Room) : list string := (map_to_list (Users room)).*1.

(** No room and no entry is stored under the empty string. *)
Definition nonempty_keys (s : ConferenceAPI) : Prop :=
  Rooms s !! "" = None
  ∧ ∀ r room, Rooms s !! r = Some room → Users room !! "" = None.

(** A refresh with a body and non-empty ids that misses its room or its
    user in [s]. *)
Definition refreshMisses (c : Call) (s : ConferenceAPI) : Prop :=
  match c with
  | UpdatePresence (Some req) _ _ =>
      UpdatePresenceRequest.UserID req ≠ ""
      ∧ UpdatePresenceRequest.RoomID req ≠ ""
      ∧ (Rooms s !! UpdatePresenceRequest.RoomID req
         ≫= λ room, Users room !! UpdatePresenceRequest.UserID req) = None
  | _ => False
  end.

(** The entry of user [u] in room [r]. *)
Definition lookupEntry (s : ConferenceAPI) (r u : string) : option User :=
  Rooms s !! r ≫= λ room, Users room !! u.

(** Check-in requests, each with the clock reading of its handler, as
    calls. *)
Definition checkInCalls (reqs : list (option CheckInRequest.t * time.Time)) : list Call :=
  (λ rq, CheckIn rq.1 rq.2) <$> reqs.

(** The entry a request writes, when it passes validation and is for
    user [u] in room [r]. *)
Definition entryFor (r u : string) (rq : option CheckInRequest.t * time.Time)
    : option User :=
  match rq.1 with
  | Some req =>
      if decide (CheckInRequest.UserID req ≠ "" ∧ CheckInRequest.RoomID req ≠ ""
                 ∧ CheckInRequest.RoomID req = r ∧ CheckInRequest.UserID req = u)
      then Some {| ID := u; ExpiresAt := time.Add rq.2 defaultTTL |}
      else None
  | None => None
  end.

(** The name of the room registered under [r]. *)
Definition roomName (s : ConferenceAPI) (r : string) : option string :=
  Name <$> Rooms s !! r.

(** The registry after serving check-in requests one after the other,
    from the empty registry. *)
Definition sequentially (reqs : list (option CheckInRequest.t * time.Time))
    : ConferenceAPI :=
  serveAll (checkInCalls reqs) api.

(** The room id a request registers when it passes validation. *)
Definition roomFor (rq : option CheckInRequest.t * time.Time) : option string :=
  roomCheckedIn (CheckIn rq.1 rq.2).

(** A room and a registry from their fields. *)
Definition asRoom (name : string) (users : gmap string User) : Room :=
  {| Name := name; Users := users |}.
Definition asRegistry (rooms : gmap string Room) : ConferenceAPI :=
  {| Rooms := rooms |}.

(** ** States used as concrete inputs *)

Definition alice_in_r1 : ConferenceAPI :=
  (checkInHandler (Some (CheckInRequest.mk "alice" "r1")) 0%Z api).2.

(** ** Concurrent check-ins (lines 36-78 as interleaved threads)

    Each request runs [checkInHandler] in a goroutine of its own.  The
    threads share the registry [api], its [RoomLock], and the [Room]
    objects the registry points to, each with its [UserLock].  A thread
    advances one statement at a time; a thread that waits for a mutex
    cannot advance.  Every interleaving is a schedule: a list of thread
    ids, the thread to advance next. *)

Module Conc.

Abbreviation tid := nat.

(** Address of a [Room] object: its index in the heap, in order of
    allocation. *)
Abbreviation loc := nat.

(** A [sync.RWMutex] used through [Lock] and [Unlock] only, as the
    check-in handler does: free, or held by a thread. *)
Abbreviation RWMutex := (option tid).

Record Room := mkRoom {
  Name : string;
  Users : gmap string User;
  UserLock : RWMutex
}.

Record ConferenceAPI := mkConferenceAPI {
  Rooms : gmap string loc;
  RoomLock : RWMutex
}.

(** Where a thread stands: the line it executes next, with the local
    variable [room] once it is assigned. *)
Inductive Label :=
  | L44                 (* decode, validate, compute [user] (lines 44-60) *)
  | L62                 (* api.RoomLock.Lock() *)
  | L63                 (* room, exists := api.Rooms[req.RoomID] *)
  | L65                 (* room = &Room{...} *)
  | L69 (room : loc)    (* api.Rooms[req.RoomID] = room *)
  | L71 (room : loc)    (* api.RoomLock.Unlock() *)
  | L73 (room : loc)    (* room.UserLock.Lock() *)
  | L74 (room : loc)    (* room.Users[req.UserID] = user *)
  | L75 (room : loc)    (* room.UserLock.Unlock() *)
  | L77 (room : loc)    (* fmt.Fprintf(w, ...) *)
  | Returned (room : option loc) (reply : Reply).

Record Thread := mkThread {
  body : option CheckInRequest.t;
  now : time.Time;
  pc : Label
}.

Record State := mkState {
  api : ConferenceAPI;
  heap : list Room;
  threads : list Thread
}.

(** The request of a thread past line 53; empty ids before. *)
Definition userID (th : Thread) : string :=
  from_option CheckInRequest.UserID "" (body th).
Definition roomID (th : Thread) : string :=
  from_option CheckInRequest.RoomID "" (body th).

(** Lines 55-60. *)
Definition userOf (th : Thread) : User :=
  {| ID := userID th; ExpiresAt := time.Add (now th) defaultTTL |}.

(** The local variable [room] of a thread, once assigned. *)
Definition roomPtr (l : Label) : option loc :=
  match l with
  | L69 room | L71 room | L73 room | L74 room | L75 room | L77 room => Some room
  | Returned room _ => room
  | L44 | L62 | L63 | L65 => None
  end.

(** Between [Lock] and [Unlock] of the registry mutex. *)
Definition inCritical (l : Label) : bool :=
  match l with
  | L63 | L65 | L69 _ | L71 _ => true
  | _ => false
  end.

(** Thread [t] moves on to [l]. *)
Definition jump (th : Thread) (l : Label) : Thread :=
  {| body := body th; now := now th; pc := l |}.

Definition goto (t : tid) (l : Label) (σ : State) : list Thread :=
  alter (λ th, jump th l) t (threads σ).

(** One statement of thread [t]; [None] when [t] is no thread, has
    returned, or waits for a mutex. *)
Definition step (t : tid) (σ : State) : option State :=
  th ← threads σ !! t;
  match pc th with
  | L44 =>
      match body th with
      | None => Some {| api := api σ; heap := heap σ;
                        threads := goto t (Returned None BadFormat) σ |}
      | Some req =>
          if decide (CheckInRequest.UserID req = "" ∨ CheckInRequest.RoomID req = "")
          then Some {| api := api σ; heap := heap σ;
                       threads := goto t (Returned None MissingFields) σ |}
          else Some {| api := api σ; heap := heap σ; threads := goto t L62 σ |}
      end
  | L62 =>
      match RoomLock (api σ) with
      | Some _ => None
      | None => Some {| api := {| Rooms := Rooms (api σ); RoomLock := Some t |};
                        heap := heap σ; threads := goto t L63 σ |}
      end
  | L63 =>
      match Rooms (api σ) !! roomID th with
      | Some room => Some {| api := api σ; heap := heap σ; threads := goto t (L71 room) σ |}
      | None => Some {| api := api σ; heap := heap σ; threads := goto t L65 σ |}
      end
  | L65 =>
      Some {| api := api σ;
              heap := heap σ ++ [{| Name := roomID th; Users := ∅; UserLock := None |}];
              threads := goto t (L69 (length (heap σ))) σ |}
  | L69 room =>
      Some {| api := {| Rooms := <[roomID th := room]> (Rooms (api σ));
                        RoomLock := RoomLock (api σ) |};
              heap := heap σ; threads := goto t (L71 room) σ |}
  | L71 room =>
      Some {| api := {| Rooms := Rooms (api σ); RoomLock := None |};
              heap := heap σ; threads := goto t (L73 room) σ |}
  | L73 room =>
      o ← heap σ !! room;
      match UserLock o with
      | Some _ => None
      | None =>
          Some {| api := api σ;
                  heap := <[room := {| Name := Name o; Users := Users o;
                                       UserLock := Some t |}]> (heap σ);
                  threads := goto t (L74 room) σ |}
      end
  | L74 room =>
      o ← heap σ !! room;
      Some {| api := api σ;
              heap := <[room := {| Name := Name o;
                                   Users := <[userID th := userOf th]> (Users o);
                                   UserLock := UserLock o |}]> (heap σ);
              threads := goto t (L75 room) σ |}
  | L75 room =>
      o ← heap σ !! room;
      Some {| api := api σ;
              heap := <[room := {| Name := Name o; Users := Users o;
                                   UserLock := None |}]> (heap σ);
              threads := goto t (L77 room) σ |}
  | L77 room =>
      Some {| api := api σ; heap := heap σ;
              threads := goto t (Returned (Some room)
                                   (CheckedIn (userID th) (roomID th))) σ |}
  | Returned _ _ => None
  end.

(** A schedule, run from left to right; a thread that cannot advance
    when its turn comes leaves the state as it is. *)
Definition run (sched : list tid) (σ : State) : State :=
  foldl (λ σ t, default σ (step t σ)) σ sched.

(** The server at start with one thread per incoming request. *)
Definition spawn (r : option CheckInRequest.t * time.Time) : Thread :=
  {| body := r.1; now := r.2; pc := L44 |}.

Definition init (reqs : list (option CheckInRequest.t * time.Time)) : State :=
  {| api := {| Rooms := ∅; RoomLock := None |}; heap := []; threads := spawn <$> reqs |}.

(** The room ids of the [Room] objects, by address. *)
Definition names (σ : State) : list string := Name <$> heap σ.

(** What the position of thread [t] says about the shared state: inside
    the critical section it holds [RoomLock]; after a failed lookup the
    room id is not registered, and the object it allocated carries its
    room id; past the critical section its [room] is the registered one. *)
Definition thread_ok (σ : State) (t : tid) (th : Thread) : Prop :=
  (inCritical (pc th) = true → RoomLock (api σ) = Some t)
  ∧ match pc th with
    | L65 => Rooms (api σ) !! roomID th = None
    | L69 l => Rooms (api σ) !! roomID th = None ∧ names σ !! l = Some (roomID th)
    | L71 l | L73 l | L74 l | L75 l | L77 l | Returned (Some l) _ =>
        Rooms (api σ) !! roomID th = Some l
    | L44 | L62 | L63 | Returned None _ => True
    end.

(** The invariant of the interleaved runs. *)
Record wf (σ : State) : Prop := mkWf {
  wf_names : NoDup (names σ);
  wf_registry : ∀ r l, Rooms (api σ) !! r = Some l → names σ !! l = Some r;
  wf_owned : ∀ l r, names σ !! l = Some r →
    Rooms (api σ) !! r = Some l
    ∨ ∃ t th, threads σ !! t = Some th ∧ pc th = L69 l ∧ roomID th = r;
  wf_threads : ∀ t th, threads σ !! t = Some th → thread_ok σ t th
}.

(** The statements of the handler as a relation: thread [t], standing
    at [pc th] in state [σ], moves to the label and leaves the registry
    and the heap given.  [step] computes it ([step_Step] below). *)
Inductive Step (t : tid) (σ : State) (th : Thread)
    : Label → ConferenceAPI → list Room → Prop :=
  | Step_undecoded :
      pc th = L44 → body th = None →
      Step t σ th (Returned None BadFormat) (api σ) (heap σ)
  | Step_rejected req :
      pc th = L44 → body th = Some req →
      CheckInRequest.UserID req = "" ∨ CheckInRequest.RoomID req = "" →
      Step t σ th (Returned None MissingFields) (api σ) (heap σ)
  | Step_accepted req :
      pc th = L44 → body th = Some req →
      ¬ (CheckInRequest.UserID req = "" ∨ CheckInRequest.RoomID req = "") →
      Step t σ th L62 (api σ) (heap σ)
  | Step_lock :
      pc th = L62 → RoomLock (api σ) = None →
      Step t σ th L63 {| Rooms := Rooms (api σ); RoomLock := Some t |} (heap σ)
  | Step_found l :
      pc th = L63 → Rooms (api σ) !! roomID th = Some l →
      Step t σ th (L71 l) (api σ) (heap σ)
  | Step_not_found :
      pc th = L63 → Rooms (api σ) !! roomID th = None →
      Step t σ th L65 (api σ) (heap σ)
  | Step_alloc :
      pc th = L65 →
      Step t σ th (L69 (length (heap σ))) (api σ)
        (heap σ ++ [{| Name := roomID th; Users := ∅; UserLock := None |}])
  | Step_register l :
      pc th = L69 l →
      Step t σ th (L71 l)
        {| Rooms := <[roomID th := l]> (Rooms (api σ)); RoomLock := RoomLock (api σ) |}
        (heap σ)
  | Step_unlock l :
      pc th = L71 l →
      Step t σ th (L73 l) {| Rooms := Rooms (api σ); RoomLock := None |} (heap σ)
  | Step_room_lock l o :
      pc th = L73 l → heap σ !! l = Some o → UserLock o = None →
      Step t σ th (L74 l) (api σ)
        (<[l := {| Name := Name o; Users := Users o; UserLock := Some t |}]> (heap σ))
  | Step_write l o :
      pc th = L74 l → heap σ !! l = Some o →
      Step t σ th (L75 l) (api σ)
        (<[l := {| Name := Name o; Users := <[userID th := userOf th]> (Users o);
                   UserLock := UserLock o |}]> (heap σ))
  | Step_room_unlock l o :
      pc th = L75 l → heap σ !! l = Some o →
      Step t σ th (L77 l) (api σ)
        (<[l := {| Name := Name o; Users := Users o; UserLock := None |}]> (heap σ))
  | Step_reply l :
      pc th = L77 l →
      Step t σ th (Returned (Some l) (CheckedIn (userID th) (roomID th)))
        (api σ) (heap σ).

(** A request that passes the test of line 50. *)
Definition valid (th : Thread) : Prop := userID th ≠ "" ∧ roomID th ≠ "".

(** The entry under the user id of [th] in the room at [l] was written
    by a check-in of that user into that room. *)
Definition written (σ : State) (th : Thread) (l : loc) : Prop :=
  ∃ o t' th',
    heap σ !! l = Some o
    ∧ threads σ !! t' = Some th'
    ∧ userID th' = userID th
    ∧ roomPtr (pc th') = Some l
    ∧ Users o !! userID th = Some (userOf th').

(** What the position of a thread says about its request, its reply and
    its write. *)
Definition thread_done (σ : State) (th : Thread) : Prop :=
  match pc th with
  | L44 => True
  | L62 | L63 | L65 | L69 _ | L71 _ | L73 _ | L74 _ => valid th
  | L75 l | L77 l => valid th ∧ written σ th l
  | Returned (Some l) rep =>
      valid th ∧ rep = CheckedIn (userID th) (roomID th) ∧ written σ th l
  | Returned None rep => ¬ valid th ∧ InvalidRequest rep = true
  end.

(** Who holds the mutexes. *)
Record locks_ok (σ : State) : Prop := mkLocksOk {
  lk_room : ∀ t, RoomLock (api σ) = Some t →
    ∃ th, threads σ !! t = Some th ∧ inCritical (pc th) = true;
  lk_user : ∀ l o t, heap σ !! l = Some o → UserLock o = Some t →
    ∃ th, threads σ !! t = Some th ∧ (pc th = L74 l ∨ pc th = L75 l)
}.

(** Every [Room] object is pointed to by the thread that created it. *)
Definition tracked (σ : State) : Prop :=
  ∀ l r, names σ !! l = Some r →
    ∃ t th, threads σ !! t = Some th ∧ roomID th = r ∧ roomPtr (pc th) = Some l.

Record Inv (σ : State) : Prop := mkInv {
  inv_wf : wf σ;
  inv_locks : locks_ok σ;
  inv_tracked : tracked σ;
  inv_done : ∀ t th, threads σ !! t = Some th → thread_done σ th
}.

(** Statements left to run, at most. *)
Definition remaining (l : Label) : nat :=
  match l with
  | L44 => 10 | L62 => 9 | L63 => 8 | L65 => 7 | L69 _ => 6 | L71 _ => 5
  | L73 _ => 4 | L74 _ => 3 | L75 _ => 2 | L77 _ => 1 | Returned _ _ => 0
  end.

Definition work (σ : State) : nat := sum_list (remaining ∘ pc <$> threads σ).

(** The number of [Room] objects created so far. *)
Definition created (σ : State) : nat := length (heap σ).

Definition returned (th : Thread) : bool :=
  match pc th with Returned _ _ => true | _ => false end.

(** Every handler has returned. *)
Definition allReturned (σ : State) : Prop :=
  Forall (λ th, returned th = true) (threads σ).

#[global] Instance allReturned_dec σ : Decision (allReturned σ).
Proof. unfold allReturned. apply _. Defined.

(** Two check-ins into the same new room, and an interleaving of them. *)
Definition two_callers : list (option CheckInRequest.t * time.Time) :=
  [(Some (CheckInRequest.mk "alice" "r1"), 0%Z);
   (Some (CheckInRequest.mk "bob" "r1"), 1%Z)].

Definition interleaved : list tid :=
  [0; 1; 1; 0; 1; 0; 1; 0; 0; 1; 0; 1; 1; 0; 0; 1; 1; 0].

(** The schedule that runs the threads [0 .. n-1] one after the other,
    each for the ten statements of the handler. *)
Definition oneByOne (n : nat) : list tid :=
  t ← seq 0 n; replicate 10 t.

(** A thread between [room.UserLock.Lock()] and [room.UserLock.Unlock()]
    holds the mutex of its room. *)
Definition holds_lock (σ : State) (t : tid) (th : Thread) : Prop :=
  ∀ l, pc th = L74 l ∨ pc th = L75 l →
    ∃ o, heap σ !! l = Some o ∧ UserLock o = Some t.

(** Every entry of every room was written by a thread whose request
    passed validation and names that room and that user. *)
Definition provenance (σ : State) : Prop :=
  ∀ l o u e, heap σ !! l = Some o → Users o !! u = Some e →
    ∃ t th, threads σ !! t = Some th
            ∧ valid th ∧ roomID th = Name o ∧ userID th = u ∧ e = userOf th.

Record Inv2 (σ : State) : Prop := mkInv2 {
  inv2_inv : Inv σ;
  inv2_holds : ∀ t th, threads σ !! t = Some th → holds_lock σ t th;
  inv2_provenance : provenance σ
}.

(** The entry of user [u] in the room registered under [r]. *)
Definition entryOf (σ : State) (r u : string) : option User :=
  l ← Rooms (api σ) !! r; o ← heap σ !! l; Users o !! u.

(** The registry of a state as the sequential model has it: pointers
    followed, mutexes dropped. *)
Definition flatten (σ : State) :=
  asRegistry
    (omap (λ l, (λ o, asRoom (Name o) (Users o)) <$> heap σ !! l) (Rooms (api σ))).

(** Every thread other than [t] has not started or has returned. *)
Definition othersIdle (t : tid) (σ : State) : Prop :=
  ∀ t' th', t' ≠ t → threads σ !! t' = Some th' →
    pc th' = L44 ∨ returned th' = true.

End Conc.

(** * Proofs *)

(** ** The eviction pass over one room *)

Section range_users.
Context (now : string → time.Time).

#[local] Abbreviation alive := (alive now).

Lemma visitUser_alive acc m k u :
  alive (k, u) → visitUser now (acc, m) (k, u) = (acc ++ [k], m).
Proof.
  unfold alive, visitUser, time.After; simpl. intros H.
  by rewrite (proj2 (Z.ltb_lt _ _) H).
Qed.

Lemma visitUser_expired acc m k u :
  ¬ alive (k, u) → visitUser now (acc, m) (k, u) = (acc, delete k m).
Proof.
  unfold alive, visitUser, time.After; simpl. intros H.
  destruct (Z.ltb_spec (now k) (ExpiresAt u)); [done|reflexivity].
Qed.

Lemma foldl_visitUser_ids l acc m k :
  k ∈ (foldl (visitUser now) (acc, m) l).1
  ↔ k ∈ acc ∨ ∃ u, (k, u) ∈ l ∧ alive (k, u).
Proof.
  revert acc m. induction l as [|[k' u'] l IH]; intros acc m; cbn [foldl].
  - split; [by left|]. intros [?|(u & Hu & _)]; [done|]. by apply elem_of_nil in Hu.
  - destruct (decide (alive (k', u'))) as [Ha|Ha].
    + rewrite visitUser_alive, IH by done. rewrite elem_of_app, list_elem_of_singleton.
      split.
      * intros [[?| ->]|(u & Hu & Hal)]; [by left| |].
        -- right. exists u'. split; [left|done].
        -- right. exists u. split; [by right|done].
      * intros [?|(u & Hu & Hal)]; [by left; left|].
        apply elem_of_cons in Hu as [[= -> ->]|Hu]; [by left; right|].
        right. by exists u.
    + rewrite visitUser_expired, IH by done. split.
      * intros [?|(u & Hu & Hal)]; [by left|]. right. exists u. split; [by right|done].
      * intros [?|(u & Hu & Hal)]; [by left|].
        apply elem_of_cons in Hu as [[= -> ->]|Hu]; [done|].
        right. by exists u.
Qed.

Lemma foldl_visitUser_None l acc m k :
  m !! k = None → (foldl (visitUser now) (acc, m) l).2 !! k = None.
Proof.
  revert acc m. induction l as [|[k' u'] l IH]; intros acc m Hm; cbn [foldl]; [done|].
  destruct (decide (alive (k', u'))) as [Ha|Ha].
  - rewrite visitUser_alive by done. by apply IH.
  - rewrite visitUser_expired by done. apply IH.
    rewrite lookup_delete. by case_decide.
Qed.

Lemma foldl_visitUser_deleted l acc m k u :
  (k, u) ∈ l → ¬ alive (k, u) →
  (foldl (visitUser now) (acc, m) l).2 !! k = None.
Proof.
  revert acc m. induction l as [|[k' u'] l IH]; intros acc m Hin Hex; cbn [foldl].
  - by apply elem_of_nil in Hin.
  - apply elem_of_cons in Hin as [[= <- <-]|Hin].
    + rewrite visitUser_expired by done.
      apply foldl_visitUser_None, lookup_delete_eq.
    + destruct (decide (alive (k', u'))) as [Ha|Ha].
      * rewrite visitUser_alive by done. by apply IH.
      * rewrite visitUser_expired by done. by apply IH.
Qed.

Lemma foldl_visitUser_kept l acc m k :
  (∀ u, (k, u) ∈ l → alive (k, u)) →
  (foldl (visitUser now) (acc, m) l).2 !! k = m !! k.
Proof.
  revert acc m. induction l as [|[k' u'] l IH]; intros acc m Hal; cbn [foldl]; [done|].
  assert (∀ u, (k, u) ∈ l → alive (k, u)) as Hl by (intros u ?; apply Hal; by right).
  destruct (decide (alive (k', u'))) as [Ha|Ha].
  - rewrite visitUser_alive by done. by apply IH.
  - rewrite visitUser_expired, IH by done.
    apply lookup_delete_ne. intros ->. apply Ha, Hal. by left.
Qed.

(** The active user ids are the keys of the entries that pass the test. *)
Lemma rangeUsers_ids users k :
  k ∈ (rangeUsers now users).1 ↔ ∃ u, users !! k = Some u ∧ alive (k, u).
Proof.
  unfold rangeUsers. rewrite foldl_visitUser_ids. split.
  - intros [H|(u & Hu & Ha)]; [by apply elem_of_nil in H|].
    exists u. by rewrite <- elem_of_map_to_list.
  - intros (u & Hu & Ha). right. exists u. by rewrite elem_of_map_to_list.
Qed.

(** The map left behind holds exactly the entries that pass the test. *)
Lemma rangeUsers_map users :
  (rangeUsers now users).2 = filter alive users.
Proof.
  apply map_eq. intros k. unfold rangeUsers.
  destruct (users !! k) as [u|] eqn:Hk.
  - destruct (decide (alive (k, u))) as [Ha|Ha].
    + rewrite foldl_visitUser_kept.
      * rewrite Hk. symmetry. by apply map_lookup_filter_Some.
      * intros u' Hu'. apply elem_of_map_to_list in Hu'. congruence.
    + rewrite (foldl_visitUser_deleted _ _ _ k u); [|by apply elem_of_map_to_list|done].
      symmetry. apply map_lookup_filter_None. right. intros u' Hu'. congruence.
  - rewrite foldl_visitUser_None by done.
    symmetry. apply map_lookup_filter_None. by left.
Qed.

(** No user id is listed twice. *)
Lemma foldl_visitUser_NoDup l acc m :
  NoDup (acc ++ l.*1) → NoDup (foldl (visitUser now) (acc, m) l).1.
Proof.
  revert acc m. induction l as [|[k' u'] l IH]; intros acc m Hnd; cbn [foldl fmap list_fmap fst] in *.
  - by rewrite app_nil_r in Hnd.
  - destruct (decide (alive (k', u'))) as [Ha|Ha].
    + rewrite visitUser_alive by done. apply IH. by rewrite <- app_assoc.
    + rewrite visitUser_expired by done. apply IH.
      apply NoDup_app in Hnd as (H1 & H2 & H3). apply NoDup_cons in H3 as [_ H3].
      apply NoDup_app. split_and!; [done| |done].
      intros x Hx Hx'. apply (H2 x Hx). by right.
Qed.

Lemma rangeUsers_NoDup users : NoDup (rangeUsers now users).1.
Proof. apply foldl_visitUser_NoDup. simpl. apply NoDup_fst_map_to_list. Qed.

End range_users.

(** ** The pass over all rooms *)

Section range_rooms.
Context (clk : Clock).

#[local] Abbreviation evicted := (evicted clk).
#[local] Abbreviation infoOf := (infoOf clk).

Lemma visitRoom_eq acc m r room :
  visitRoom clk (acc, m) (r, room)
  = (acc ++ [infoOf (r, room)], <[r := evicted r room]> m).
Proof.
  unfold visitRoom, infoOf, evicted; cbn [fst snd].
  rewrite <- rangeUsers_map. by destruct (rangeUsers (clk r) (Users room)).
Qed.

Lemma foldl_visitRoom_infos l acc m :
  (foldl (visitRoom clk) (acc, m) l).1 = acc ++ (infoOf <$> l).
Proof.
  revert acc m. induction l as [|[r room] l IH]; intros acc m; cbn [foldl].
  - by rewrite app_nil_r.
  - rewrite visitRoom_eq, IH, <- app_assoc. done.
Qed.

Lemma foldl_visitRoom_other l acc m r :
  r ∉ l.*1 → (foldl (visitRoom clk) (acc, m) l).2 !! r = m !! r.
Proof.
  revert acc m. induction l as [|[r' room'] l IH]; intros acc m Hr; cbn [foldl]; [done|].
  rewrite fmap_cons in Hr. apply not_elem_of_cons in Hr as [Hne Hr].
  rewrite visitRoom_eq, IH by done. by apply lookup_insert_ne.
Qed.

Lemma foldl_visitRoom_visited l acc m r room :
  NoDup l.*1 → (r, room) ∈ l →
  (foldl (visitRoom clk) (acc, m) l).2 !! r = Some (evicted r room).
Proof.
  revert acc m. induction l as [|[r' room'] l IH]; intros acc m Hnd Hin; cbn [foldl].
  - by apply elem_of_nil in Hin.
  - rewrite fmap_cons in Hnd. apply NoDup_cons in Hnd as [Hr' Hnd].
    rewrite visitRoom_eq.
    apply elem_of_cons in Hin as [[= <- <-]|Hin].
    + rewrite foldl_visitRoom_other by done. apply lookup_insert_eq.
    + by apply IH.
Qed.

(** The output of the pass: one [RoomInfo] per room of the registry. *)
Lemma rangeRooms_infos rooms :
  (rangeRooms clk rooms).1 = infoOf <$> map_to_list rooms.
Proof. unfold rangeRooms. by rewrite foldl_visitRoom_infos. Qed.

(** The registry after the pass: every room is still there, evicted. *)
Lemma rangeRooms_lookup rooms r :
  (rangeRooms clk rooms).2 !! r = evicted r <$> rooms !! r.
Proof.
  unfold rangeRooms. destruct (rooms !! r) as [room|] eqn:Hr; cbn [fmap option_fmap option_map].
  - apply foldl_visitRoom_visited; [apply NoDup_fst_map_to_list|].
    by apply elem_of_map_to_list.
  - rewrite foldl_visitRoom_other; [done|].
    intros ((r' & room') & -> & Hin)%list_elem_of_fmap.
    apply elem_of_map_to_list in Hin. simpl in Hr. congruence.
Qed.

Lemma listRoomsHandler_reply s :
  (listRoomsHandler clk s).1 = RoomsList (infoOf <$> map_to_list (Rooms s)).
Proof.
  unfold listRoomsHandler. rewrite <- rangeRooms_infos.
  by destruct (rangeRooms clk (Rooms s)).
Qed.

Lemma listRoomsHandler_state s r :
  Rooms (listRoomsHandler clk s).2 !! r = evicted r <$> Rooms s !! r.
Proof.
  unfold listRoomsHandler. rewrite <- rangeRooms_lookup.
  by destruct (rangeRooms clk (Rooms s)).
Qed.

Lemma elem_of_listRooms info s :
  info ∈ roomsOf (listRoomsHandler clk s).1
  ↔ ∃ room, Rooms s !! RoomID info = Some room
            ∧ UserIDs info = (rangeUsers (clk (RoomID info)) (Users room)).1.
Proof.
  rewrite listRoomsHandler_reply. cbn [roomsOf]. rewrite list_elem_of_fmap. split.
  - intros ([r room] & -> & Hin). apply elem_of_map_to_list in Hin.
    exists room. done.
  - intros (room & Hr & Hids). exists (RoomID info, room). split.
    + destruct info as [r ids]. unfold infoOf. cbn in *. by rewrite Hids.
    + by apply elem_of_map_to_list.
Qed.

End range_rooms.

(** ** Snapshot: eviction and listing *)

(** C1. During a list-rooms pass, an entry whose [ExpiresAt] is at or
    before the clock reading [now] made at that entry is deleted from its
    room's user map and is in no user-id list of that room in the reply;
    an entry whose [ExpiresAt] is strictly after [now] stays in the map,
    unchanged, and its user id is in the room's user-id list.  The room
    itself is listed in either case. *)
Theorem snapshot_evicts_expired_keeps_live
    (clk : Clock) (s : ConferenceAPI) (r u : string) (room : Room) (e : User) :
  Rooms s !! r = Some room →
  Users room !! u = Some e →
  let now := clk r u in
  let out := listRoomsHandler clk s in
  ∃ room',
    Rooms out.2 !! r = Some room'
    ∧ ((ExpiresAt e ≤ now)%Z → Users room' !! u = None)
    ∧ ((now < ExpiresAt e)%Z → Users room' !! u = Some e)
    ∧ (∃ info, info ∈ roomsOf out.1 ∧ RoomID info = r)
    ∧ ∀ info, info ∈ roomsOf out.1 → RoomID info = r →
        ((ExpiresAt e ≤ now)%Z → u ∉ UserIDs info)
        ∧ ((now < ExpiresAt e)%Z → u ∈ UserIDs info).
Proof.
  intros Hr Hu now out. exists (evicted clk r room). split_and!.
  - subst out. by rewrite listRoomsHandler_state, Hr.
  - intros Hexp. cbn. apply map_lookup_filter_None. right.
    intros e' He'. unfold alive. cbn. simplify_eq. subst now. lia.
  - intros Hlive. cbn. apply map_lookup_filter_Some. done.
  - exists (infoOf clk (r, room)). split; [|done].
    apply elem_of_listRooms. exists room. done.
  - intros info Hin <-. apply elem_of_listRooms in Hin as (room0 & Hr0 & Hids).
    simplify_eq. rewrite Hids. split.
    + intros Hexp (e' & He' & Ha)%rangeUsers_ids. unfold alive in Ha. cbn in Ha.
      simplify_eq. subst now. lia.
    + intros Hlive. apply rangeUsers_ids. by exists e.
Qed.

Lemma snapshot_evicts_expired_keeps_live_witness :
  ∃ room',
    Rooms (listRoomsHandler (λ _ _, 300000000001%Z) alice_in_r1).2 !! "r1" = Some room'
    ∧ Users room' !! "alice" = None.
Proof.
  destruct (snapshot_evicts_expired_keeps_live (λ _ _, 300000000001%Z) alice_in_r1
              "r1" "alice"
              {| Name := "r1"; Users := {[ "alice" := mkUser "alice" 300000000000%Z ]} |}
              (mkUser "alice" 300000000000%Z))
    as (room' & Hroom & Hgone & _).
  - vm_compute. reflexivity.
  - reflexivity.
  - exists room'. split; [exact Hroom|]. apply Hgone. cbn. lia.
Defined.

(** ** Check-in *)

Lemma defaultTTL_eq : defaultTTL = 300000000000%Z.
Proof. reflexivity. Qed.

Lemma checkInHandler_valid u r now s :
  u ≠ "" → r ≠ "" →
  checkInHandler (Some (CheckInRequest.mk u r)) now s
  = (CheckedIn u r,
     {| Rooms := <[r := {| Name := Name (default {| Name := r; Users := ∅ |} (Rooms s !! r));
                           Users := <[u := {| ID := u; ExpiresAt := (now + defaultTTL)%Z |}]>
                                      (Users (default {| Name := r; Users := ∅ |} (Rooms s !! r))) |}]>
                  (Rooms s) |}).
Proof.
  intros Hu Hr. unfold checkInHandler; cbn.
  destruct (decide (u = "" ∨ r = "")) as [[?|?]|_]; [done..|].
  by destruct (Rooms s !! r).
Qed.

Lemma checkInHandler_missing req now s :
  CheckInRequest.UserID req = "" ∨ CheckInRequest.RoomID req = "" →
  checkInHandler (Some req) now s = (MissingFields, s).
Proof. intros H. unfold checkInHandler. by rewrite decide_True. Qed.

(** What a valid check-in stores, whatever was there before. *)
Lemma checkInHandler_entry u r now s :
  u ≠ "" → r ≠ "" →
  ∃ room, Rooms (checkInHandler (Some (CheckInRequest.mk u r)) now s).2 !! r = Some room
          ∧ Users room !! u = Some {| ID := u; ExpiresAt := (now + defaultTTL)%Z |}.
Proof.
  intros Hu Hr. rewrite checkInHandler_valid by done. cbn.
  eexists. split; [apply lookup_insert_eq|]. cbn. apply lookup_insert_eq.
Qed.

Lemma replies_checkIns u r nows s rep :
  u ≠ "" → r ≠ "" → rep ∈ replies (checkIns u r nows) s → rep = CheckedIn u r.
Proof.
  intros Hu Hr. revert s. induction nows as [|now nows IH]; intros s.
  - intros H. by apply elem_of_nil in H.
  - change (replies (checkIns u r (now :: nows)) s)
      with ((checkInHandler (Some (CheckInRequest.mk u r)) now s).1
            :: replies (checkIns u r nows)
                 (checkInHandler (Some (CheckInRequest.mk u r)) now s).2).
    intros [->|H]%elem_of_cons.
    + by rewrite checkInHandler_valid.
    + by eapply IH.
Qed.

Lemma serveAll_app cs1 cs2 s :
  serveAll (cs1 ++ cs2) s = serveAll cs2 (serveAll cs1 s).
Proof. apply foldl_app. Qed.

Lemma length_replies cs s : length (replies cs s) = length cs.
Proof. revert s. induction cs as [|c cs IH]; intros s; cbn; [done|]. by rewrite IH. Qed.

(** C2. After any sequence of check-ins of the same user into the same
    room, the last one made at [now], the room's entry for the user is
    the one that last call wrote, with [ExpiresAt = now + 5 minutes],
    whatever the earlier calls and the earlier state were; every call of
    the sequence is answered, and with the same success reply, be it the
    first check-in or a repeated one. *)
Theorem checkin_last_write_wins
    (u r : string) (nows : list time.Time) (now : time.Time) (s : ConferenceAPI) :
  u ≠ "" → r ≠ "" →
  let cs := checkIns u r (nows ++ [now]) in
  length (replies cs s) = length cs
  ∧ (∀ rep, rep ∈ replies cs s → rep = CheckedIn u r ∧ succeeded rep = true)
  ∧ ∃ room,
      Rooms (serveAll cs s) !! r = Some room
      ∧ Users room !! u = Some {| ID := u; ExpiresAt := (now + 5 * time.Minute)%Z |}.
Proof.
  intros Hu Hr cs. split_and!.
  - apply length_replies.
  - intros rep Hrep. apply replies_checkIns in Hrep as ->; done.
  - subst cs. unfold checkIns. rewrite fmap_app, serveAll_app.
    change (5 * time.Minute)%Z with defaultTTL.
    apply (checkInHandler_entry u r now); done.
Qed.

Lemma checkin_last_write_wins_witness :
  ∃ room,
    Rooms (serveAll (checkIns "alice" "r1" [5; 7; 9]%Z) api) !! "r1" = Some room
    ∧ Users room !! "alice" = Some {| ID := "alice"; ExpiresAt := 300000000009%Z |}.
Proof.
  destruct (checkin_last_write_wins "alice" "r1" [5; 7]%Z 9%Z api)
    as (_ & _ & room & Hroom & Huser); [done..|].
  exists room. split; [exact Hroom | exact Huser].
Defined.

(** ** Refresh *)

Section refresh.
Context (req : UpdatePresenceRequest.t) (now0 now1 : time.Time) (s : ConferenceAPI).

#[local] Abbreviation uid := (UpdatePresenceRequest.UserID req).
#[local] Abbreviation rid := (UpdatePresenceRequest.RoomID req).
#[local] Abbreviation expiresAt :=
  (refreshExpiry (UpdatePresenceRequest.ExpiresIn req) now0 now1).
#[local] Abbreviation out := (updatePresenceHandler (Some req) now0 now1 s).

Lemma updatePresenceHandler_missing :
  uid = "" ∨ rid = "" → out = (MissingFields, s).
Proof. intros H. unfold updatePresenceHandler. by rewrite decide_True. Qed.

Lemma updatePresenceHandler_no_room :
  uid ≠ "" → rid ≠ "" → Rooms s !! rid = None → out = (RoomNotFound, s).
Proof.
  intros Hu Hr Hroom. unfold updatePresenceHandler.
  rewrite decide_False by (intros [?|?]; done). by rewrite Hroom.
Qed.

Lemma updatePresenceHandler_no_user room :
  uid ≠ "" → rid ≠ "" → Rooms s !! rid = Some room → Users room !! uid = None →
  out = (UserNotFound, s).
Proof.
  intros Hu Hr Hroom Huser. unfold updatePresenceHandler.
  rewrite decide_False by (intros [?|?]; done). by rewrite Hroom, Huser.
Qed.

Lemma updatePresenceHandler_found room e :
  uid ≠ "" → rid ≠ "" → Rooms s !! rid = Some room → Users room !! uid = Some e →
  out = (PresenceUpdated uid rid,
         {| Rooms := <[rid := {| Name := Name room;
                                 Users := <[uid := {| ID := ID e; ExpiresAt := expiresAt |}]>
                                            (Users room) |}]> (Rooms s) |}).
Proof.
  intros Hu Hr Hroom Huser. unfold updatePresenceHandler.
  rewrite decide_False by (intros [?|?]; done). by rewrite Hroom, Huser.
Qed.

End refresh.

(** C3. For a refresh with a body and non-empty ids: the reply is
    [RoomNotFound] exactly when the room id is not a key of the registry;
    when the room is there, the reply is [UserNotFound] exactly when the
    user id is not a key of the room's map; and when an entry is there,
    whatever its [ExpiresAt] (so also one already expired for the clock),
    the refresh succeeds and the entry's [ExpiresAt] becomes the newly
    computed instant, which does not depend on the old one. *)
Theorem refresh_errors_and_overwrite
    (req : UpdatePresenceRequest.t) (now0 now1 : time.Time) (s : ConferenceAPI) :
  UpdatePresenceRequest.UserID req ≠ "" →
  UpdatePresenceRequest.RoomID req ≠ "" →
  let uid := UpdatePresenceRequest.UserID req in
  let rid := UpdatePresenceRequest.RoomID req in
  let out := updatePresenceHandler (Some req) now0 now1 s in
  (out.1 = RoomNotFound ↔ Rooms s !! rid = None)
  ∧ ∀ room, Rooms s !! rid = Some room →
      (out.1 = UserNotFound ↔ Users room !! uid = None)
      ∧ ∀ e, Users room !! uid = Some e →
          out.1 = PresenceUpdated uid rid
          ∧ ∃ room',
              Rooms out.2 !! rid = Some room'
              ∧ Users room' !! uid
                = Some {| ID := ID e;
                          ExpiresAt := refreshExpiry (UpdatePresenceRequest.ExpiresIn req)
                                         now0 now1 |}.
Proof.
  intros Hu Hr uid rid out. split.
  - subst out. destruct (Rooms s !! rid) as [room|] eqn:Hroom.
    + split; [|done]. destruct (Users room !! uid) as [e|] eqn:Huser.
      * by rewrite (updatePresenceHandler_found _ _ _ _ room e).
      * by rewrite (updatePresenceHandler_no_user _ _ _ _ room).
    + by rewrite updatePresenceHandler_no_room.
  - intros room Hroom. split.
    + subst out. destruct (Users room !! uid) as [e|] eqn:Huser.
      * by rewrite (updatePresenceHandler_found _ _ _ _ room e).
      * by rewrite (updatePresenceHandler_no_user _ _ _ _ room).
    + intros e Huser. subst out.
      rewrite (updatePresenceHandler_found _ _ _ _ room e) by done. cbn.
      split; [done|]. eexists. split; [apply lookup_insert_eq|]. cbn.
      apply lookup_insert_eq.
Qed.

Lemma refresh_errors_and_overwrite_witness :
  (updatePresenceHandler (Some (UpdatePresenceRequest.mk "alice" "r1" 10)) 7 8
     (listRoomsHandler (λ _ _, 1%Z) alice_in_r1).2).1
  = PresenceUpdated "alice" "r1"
  ∧ (updatePresenceHandler (Some (UpdatePresenceRequest.mk "bob" "r1" 10)) 7 8 alice_in_r1).1
    = UserNotFound
  ∧ (updatePresenceHandler (Some (UpdatePresenceRequest.mk "alice" "r3" 10)) 7 8 alice_in_r1).1
    = RoomNotFound.
Proof.
  split_and!.
  - destruct (refresh_errors_and_overwrite (UpdatePresenceRequest.mk "alice" "r1" 10) 7 8
                (listRoomsHandler (λ _ _, 1%Z) alice_in_r1).2) as [_ H]; [done..|].
    destruct (H {| Name := "r1"; Users := {[ "alice" := mkUser "alice" 300000000000%Z ]} |})
      as [_ H']; [vm_compute; reflexivity|].
    destruct (H' (mkUser "alice" 300000000000%Z)) as [Hrep _]; [reflexivity|].
    exact Hrep.
  - destruct (refresh_errors_and_overwrite (UpdatePresenceRequest.mk "bob" "r1" 10) 7 8
                alice_in_r1) as [_ H]; [done..|].
    destruct (H {| Name := "r1"; Users := {[ "alice" := mkUser "alice" 300000000000%Z ]} |})
      as [[_ Hrep] _]; [vm_compute; reflexivity|].
    apply Hrep. reflexivity.
  - destruct (refresh_errors_and_overwrite (UpdatePresenceRequest.mk "alice" "r3" 10) 7 8
                alice_in_r1) as [[_ Hrep] _]; [done..|].
    apply Hrep. reflexivity.
Defined.

(** ** Expiry instants *)

Lemma wrap64_small z :
  (time.int64_min ≤ z ≤ time.int64_max)%Z → time.wrap64 z = z.
Proof.
  unfold time.wrap64, time.int64_min, time.int64_max. intros H.
  rewrite Z.mod_small by lia. lia.
Qed.

Lemma wrap64_range z :
  (time.int64_min ≤ time.wrap64 z ≤ time.int64_max)%Z.
Proof.
  unfold time.wrap64, time.int64_min, time.int64_max.
  pose proof (Z.mod_pos_bound (z + 2 ^ 63) (2 ^ 64)) as H. lia.
Qed.

(** A check-in stores [now] plus five minutes. *)
Lemma checkin_expiry u r now s :
  u ≠ "" → r ≠ "" →
  ∃ room, Rooms (checkInHandler (Some (CheckInRequest.mk u r)) now s).2 !! r = Some room
          ∧ ExpiresAt <$> Users room !! u = Some (now + 300 * time.Second)%Z.
Proof.
  intros Hu Hr. destruct (checkInHandler_entry u r now s Hu Hr) as (room & H1 & H2).
  exists room. split; [done|]. rewrite H2. cbn. f_equal.
Qed.

(** A refresh without a positive [ExpiresIn] falls back to five minutes. *)
Lemma refreshExpiry_default ttl now0 now1 :
  (ttl ≤ 0)%Z → refreshExpiry ttl now0 now1 = (now0 + 300 * time.Second)%Z.
Proof.
  intros H. unfold refreshExpiry. destruct (Z.ltb_spec 0 ttl); [lia|]. reflexivity.
Qed.

(** A refresh with a positive [ExpiresIn] whose nanosecond count fits
    [int64] stores the second reading plus that many seconds. *)
Lemma refreshExpiry_seconds ttl now0 now1 :
  (0 < ttl ≤ 9223372036)%Z → refreshExpiry ttl now0 now1 = (now1 + ttl * time.Second)%Z.
Proof.
  intros H. unfold refreshExpiry. destruct (Z.ltb_spec 0 ttl); [|lia].
  unfold time.Add, time.mul. rewrite wrap64_small; [done|].
  unfold time.int64_min, time.int64_max, time.Second, time.Nanosecond. lia.
Qed.

(** Beyond that bound the product wraps around. *)
Lemma refreshExpiry_wraps ttl now0 now1 :
  (9223372036 < ttl ≤ time.int64_max)%Z →
  refreshExpiry ttl now0 now1 ≠ (now1 + ttl * time.Second)%Z.
Proof.
  intros H. unfold refreshExpiry. destruct (Z.ltb_spec 0 ttl); [|lia].
  unfold time.Add, time.mul. intros Heq.
  pose proof (wrap64_range (ttl * time.Second)) as Hr.
  unfold time.int64_min, time.int64_max, time.Second, time.Nanosecond in *. lia.
Qed.

(** C4, at an input where the code departs from it.  A refresh whose
    [expires_in] is 9223372037 seconds, a positive Go [int], succeeds and
    stores an [ExpiresAt] that lies 9223372036709551616 ns before the
    clock reading instead of 9223372037 s after it: the [int64] product
    of line 103 has wrapped around.  ([checkin_expiry],
    [refreshExpiry_default] and [refreshExpiry_seconds] are the parts of
    the claim that hold.) *)
Theorem refresh_ttl_wraps_around :
  let req := UpdatePresenceRequest.mk "alice" "r1" 9223372037 in
  let out := updatePresenceHandler (Some req) 1000 1000 alice_in_r1 in
  out.1 = PresenceUpdated "alice" "r1"
  ∧ (∃ room,
       Rooms out.2 !! "r1" = Some room
       ∧ Users room !! "alice"
         = Some {| ID := "alice"; ExpiresAt := 1000 - 9223372036709551616 |})
  ∧ (1000 - 9223372036709551616 ≠ 1000 + 9223372037 * time.Second)%Z.
Proof.
  split_and!.
  - reflexivity.
  - exists {| Name := "r1";
              Users := {[ "alice" := {| ID := "alice";
                                        ExpiresAt := 1000 - 9223372036709551616 |} ]} |}.
    split; vm_compute; reflexivity.
  - vm_compute. discriminate.
Qed.

(** ** Requests rejected at the boundary *)

(** C8. A check-in or refresh whose body did not decode, or whose user
    id or room id is empty (a missing field decodes to the empty string),
    is answered with status 400; the registry is left as it was, and
    neither the reply nor the state handed back depends on what the
    registry holds: the handler returns before it looks at it. *)
Theorem invalid_request_rejected_early (c : Call) (s : ConferenceAPI) :
  invalidBody c →
  InvalidRequest (serve c s).1 = true
  ∧ statusCode (serve c s).1 = 400%Z
  ∧ (serve c s).2 = s
  ∧ ∀ s', serve c s' = ((serve c s).1, s').
Proof.
  destruct c as [[req|] now|[req|] now0 now1|clk]; cbn [invalidBody serve]; intros H; try done.
  - rewrite checkInHandler_missing by done. split_and!; try done.
    intros s'. by rewrite checkInHandler_missing.
  - rewrite updatePresenceHandler_missing by done. split_and!; try done.
    intros s'. by rewrite updatePresenceHandler_missing.
Qed.

Lemma invalid_request_rejected_early_witness :
  serve (CheckIn (Some (CheckInRequest.mk "" "r1")) 0) alice_in_r1
  = (MissingFields, alice_in_r1)
  ∧ serve (UpdatePresence (Some (UpdatePresenceRequest.mk "alice" "" 10)) 0 0) alice_in_r1
    = (MissingFields, alice_in_r1).
Proof.
  split.
  - destruct (invalid_request_rejected_early
                (CheckIn (Some (CheckInRequest.mk "" "r1")) 0) api) as (_ & _ & _ & H).
    + left. reflexivity.
    + exact (H alice_in_r1).
  - destruct (invalid_request_rejected_early
                (UpdatePresence (Some (UpdatePresenceRequest.mk "alice" "" 10)) 0 0) api)
      as (_ & _ & _ & H).
    + right. reflexivity.
    + exact (H alice_in_r1).
Defined.

(** ** Frame of a refresh *)

(** C10. A refresh that does not succeed (no body, an empty id, room not
    found, user not found) hands back the registry it was given.  One
    that succeeds leaves every other room as it was, keeps the target
    room's name and every other entry of its map, and in the target
    entry keeps the [ID] field: only that entry's [ExpiresAt] is
    rewritten. *)
Theorem refresh_frame
    (body : option UpdatePresenceRequest.t) (now0 now1 : time.Time) (s : ConferenceAPI) :
  let out := updatePresenceHandler body now0 now1 s in
  (succeeded out.1 = false → out.2 = s)
  ∧ (succeeded out.1 = true →
     ∃ req room room' e,
       body = Some req
       ∧ let uid := UpdatePresenceRequest.UserID req in
         let rid := UpdatePresenceRequest.RoomID req in
         Rooms s !! rid = Some room
         ∧ Rooms out.2 !! rid = Some room'
         ∧ (∀ r, r ≠ rid → Rooms out.2 !! r = Rooms s !! r)
         ∧ Name room' = Name room
         ∧ (∀ u, u ≠ uid → Users room' !! u = Users room !! u)
         ∧ Users room !! uid = Some e
         ∧ Users room' !! uid
           = Some {| ID := ID e;
                     ExpiresAt := refreshExpiry (UpdatePresenceRequest.ExpiresIn req)
                                    now0 now1 |}).
Proof.
  intros out. subst out. destruct body as [req|]; [|by split].
  destruct (decide (UpdatePresenceRequest.UserID req = ""
                    ∨ UpdatePresenceRequest.RoomID req = "")) as [Hbad|Hok].
  { rewrite updatePresenceHandler_missing by done. by split. }
  assert (UpdatePresenceRequest.UserID req ≠ "") as Hu by (intros ?; apply Hok; by left).
  assert (UpdatePresenceRequest.RoomID req ≠ "") as Hr by (intros ?; apply Hok; by right).
  destruct (Rooms s !! UpdatePresenceRequest.RoomID req) as [room|] eqn:Hroom.
  2: { rewrite updatePresenceHandler_no_room by done. by split. }
  destruct (Users room !! UpdatePresenceRequest.UserID req) as [e|] eqn:Huser.
  2: { rewrite (updatePresenceHandler_no_user _ _ _ _ room) by done. by split. }
  rewrite (updatePresenceHandler_found _ _ _ _ room e) by done. cbn [fst snd Rooms].
  split; [done|]. intros _. eexists req, room, _, e. split; [done|]. cbn zeta.
  split_and!; [done|apply lookup_insert_eq| | | |done|].
  - intros r Hne. by apply lookup_insert_ne.
  - done.
  - intros u Hne. cbn. by apply lookup_insert_ne.
  - cbn. apply lookup_insert_eq.
Qed.

Lemma refresh_frame_witness :
  (updatePresenceHandler (Some (UpdatePresenceRequest.mk "bob" "r1" 10)) 7 8 alice_in_r1).2
  = alice_in_r1.
Proof.
  apply (refresh_frame (Some (UpdatePresenceRequest.mk "bob" "r1" 10)) 7 8 alice_in_r1).
  reflexivity.
Defined.

(** ** Snapshot twice *)

Lemma ConferenceAPI_eq (s s' : ConferenceAPI) : Rooms s = Rooms s' → s = s'.
Proof. destruct s, s'; cbn. by intros ->. Qed.

Lemma evicted_idemp clk r room : evicted clk r (evicted clk r room) = evicted clk r room.
Proof.
  unfold evicted; cbn. f_equal. apply map_filter_id.
  intros u e [_ H]%map_lookup_filter_Some. exact H.
Qed.

Lemma rangeUsers_ids_filter now users :
  (rangeUsers now (filter (alive now) users)).1 ≡ₚ (rangeUsers now users).1.
Proof.
  apply NoDup_Permutation; [apply rangeUsers_NoDup..|].
  intros u. rewrite !rangeUsers_ids. split.
  - intros (e & [He _]%map_lookup_filter_Some & Ha). by exists e.
  - intros (e & He & Ha). exists e. split; [|done]. by apply map_lookup_filter_Some.
Qed.

(** C5. After one list-rooms pass at [now], every entry whose
    [ExpiresAt] is at or before [now] is gone from its room's map, and no
    such entry is left anywhere in the registry; a second pass at the
    same [now] hands back the very same registry (it deletes nothing) and
    lists, room by room, the same user ids as the first. *)
Theorem snapshot_idempotent (now : time.Time) (s : ConferenceAPI) :
  let clk : Clock := λ _ _, now in
  let out1 := listRoomsHandler clk s in
  let out2 := listRoomsHandler clk out1.2 in
  (∀ r room u e,
     Rooms s !! r = Some room → Users room !! u = Some e → (ExpiresAt e ≤ now)%Z →
     ∃ room', Rooms out1.2 !! r = Some room' ∧ Users room' !! u = None)
  ∧ (∀ r room u e,
       Rooms out1.2 !! r = Some room → Users room !! u = Some e → (now < ExpiresAt e)%Z)
  ∧ out2.2 = out1.2
  ∧ (∀ info1, info1 ∈ roomsOf out1.1 →
       ∃ info2, info2 ∈ roomsOf out2.1
                ∧ RoomID info2 = RoomID info1 ∧ UserIDs info2 ≡ₚ UserIDs info1)
  ∧ (∀ info2, info2 ∈ roomsOf out2.1 →
       ∃ info1, info1 ∈ roomsOf out1.1
                ∧ RoomID info1 = RoomID info2 ∧ UserIDs info1 ≡ₚ UserIDs info2).
Proof.
  intros clk out1 out2. subst out1 out2. split_and!.
  - intros r room u e Hr Hu Hexp. exists (evicted clk r room). split.
    + by rewrite listRoomsHandler_state, Hr.
    + cbn. apply map_lookup_filter_None. right. intros e' He' Ha.
      unfold alive, clk in Ha. cbn in Ha. simplify_eq. lia.
  - intros r room u e. rewrite listRoomsHandler_state.
    destruct (Rooms s !! r) as [room0|]; [|done]. intros [= <-].
    cbn. intros [_ Ha]%map_lookup_filter_Some. exact Ha.
  - apply ConferenceAPI_eq, map_eq. intros r. rewrite !listRoomsHandler_state.
    destruct (Rooms s !! r) as [room|]; [|done]. cbn. by rewrite evicted_idemp.
  - intros info1 (room & Hr & Hids)%elem_of_listRooms.
    exists (infoOf clk (RoomID info1, evicted clk (RoomID info1) room)). split_and!.
    + apply elem_of_listRooms. exists (evicted clk (RoomID info1) room).
      split; [|done]. cbn. by rewrite listRoomsHandler_state, Hr.
    + done.
    + rewrite Hids. cbn. apply rangeUsers_ids_filter.
  - intros info2 (room' & Hr' & Hids)%elem_of_listRooms.
    rewrite listRoomsHandler_state in Hr'.
    destruct (Rooms s !! RoomID info2) as [room|] eqn:Hr; [|done].
    injection Hr' as <-.
    exists (infoOf clk (RoomID info2, room)). split_and!.
    + apply elem_of_listRooms. by exists room.
    + done.
    + rewrite Hids. cbn. symmetry. apply rangeUsers_ids_filter.
Qed.

(** ** Rooms persist *)

Lemma serve_keeps_rooms c s r :
  is_Some (Rooms s !! r) → is_Some (Rooms (serve c s).2 !! r).
Proof.
  intros Hr. destruct c as [body now|body now0 now1|clk]; cbn [serve].
  - unfold checkInHandler. destruct body as [req|]; [|done].
    case_decide; [done|]. cbn. rewrite lookup_insert. by case_decide.
  - unfold updatePresenceHandler. destruct body as [req|]; [|done].
    case_decide; [done|].
    destruct (Rooms s !! UpdatePresenceRequest.RoomID req) as [room|]; [|done].
    destruct (Users room !! UpdatePresenceRequest.UserID req); [|done].
    cbn. rewrite lookup_insert. by case_decide.
  - rewrite listRoomsHandler_state. by apply fmap_is_Some.
Qed.

Lemma serveAll_keeps_rooms cs s r :
  is_Some (Rooms s !! r) → is_Some (Rooms (serveAll cs s) !! r).
Proof.
  revert s. induction cs as [|c cs IH]; intros s Hr; [done|].
  apply IH. by apply serve_keeps_rooms.
Qed.

Lemma listRooms_ids_NoDup clk s :
  NoDup (RoomID <$> roomsOf (listRoomsHandler clk s).1).
Proof.
  rewrite listRoomsHandler_reply. cbn [roomsOf]. rewrite <- list_fmap_compose.
  apply NoDup_fst_map_to_list.
Qed.

(** C6. A room that is in the registry is still there after any sequence
    of calls, of any of the three kinds.  In a list-rooms reply it is
    listed, and no room id is listed twice; when each of its entries is
    expired at the reading made for it, the room is listed with the empty
    user-id list and stays in the registry with an empty map. *)
Theorem rooms_are_never_deleted (s : ConferenceAPI) (r : string) (room : Room) :
  Rooms s !! r = Some room →
  (∀ cs, is_Some (Rooms (serveAll cs s) !! r))
  ∧ ∀ clk,
      let out := listRoomsHandler clk s in
      (∃ info, info ∈ roomsOf out.1 ∧ RoomID info = r)
      ∧ NoDup (RoomID <$> roomsOf out.1)
      ∧ ((∀ u e, Users room !! u = Some e → (ExpiresAt e ≤ clk r u)%Z) →
         (∀ info, info ∈ roomsOf out.1 → RoomID info = r → UserIDs info = [])
         ∧ Rooms out.2 !! r = Some {| Name := Name room; Users := ∅ |}).
Proof.
  intros Hr. split.
  - intros cs. apply serveAll_keeps_rooms. by rewrite Hr.
  - intros clk out. subst out. split_and!.
    + exists (infoOf clk (r, room)). split; [|done].
      apply elem_of_listRooms. by exists room.
    + apply listRooms_ids_NoDup.
    + intros Hall. split.
      * intros info (room0 & Hr0 & Hids)%elem_of_listRooms <-.
        simplify_eq. rewrite Hids.
        destruct (rangeUsers (clk (RoomID info)) (Users room)).1 as [|u ids] eqn:Hl; [done|].
        assert (u ∈ (rangeUsers (clk (RoomID info)) (Users room)).1) as Hin
          by (rewrite Hl; left).
        apply rangeUsers_ids in Hin as (e & He & Ha).
        specialize (Hall u e He). unfold alive in Ha. cbn in Ha. lia.
      * rewrite listRoomsHandler_state, Hr. cbn. f_equal. unfold evicted. f_equal.
        apply map_empty. intros u. apply map_lookup_filter_None. right.
        intros e He Ha. specialize (Hall u e He). unfold alive in Ha. cbn in Ha. lia.
Qed.

Lemma rooms_are_never_deleted_witness :
  (∃ info, info ∈ roomsOf (listRoomsHandler (λ _ _, 300000000000%Z) alice_in_r1).1
           ∧ RoomID info = "r1")
  ∧ Rooms (listRoomsHandler (λ _ _, 300000000000%Z) alice_in_r1).2 !! "r1"
    = Some {| Name := "r1"; Users := ∅ |}.
Proof.
  destruct (rooms_are_never_deleted alice_in_r1 "r1"
              {| Name := "r1"; Users := {[ "alice" := mkUser "alice" 300000000000%Z ]} |})
    as [_ H]; [vm_compute; reflexivity|].
  destruct (H (λ _ _, 300000000000%Z)) as (Hlisted & _ & Hempty).
  split; [exact Hlisted|]. apply Hempty.
  intros u e He. cbn [Users] in He.
  apply lookup_singleton_Some in He as [<- <-]. cbn. lia.
Defined.

(** ** Keys agree with the stored fields *)

Lemma key_consistent_lookup s :
  key_consistent s
  ↔ ∀ r room, Rooms s !! r = Some room →
      Name room = r ∧ ∀ u e, Users room !! u = Some e → ID e = u.
Proof.
  unfold key_consistent. rewrite map_Forall_lookup.
  split; intros H r room Hr; destruct (H r room Hr) as [Hn Hu]; (split; [done|]).
  - intros u e He. exact (proj1 (map_Forall_lookup _ _) Hu u e He).
  - apply map_Forall_lookup. exact Hu.
Qed.

Lemma key_consistent_api : key_consistent api.
Proof. apply map_Forall_empty. Qed.

(** A check-in keeps the invariant, and it is the check-in that sets the
    [Name] of a new room and the [ID] of the entry from the keys. *)
Lemma checkInHandler_key_consistent body now s :
  key_consistent s → key_consistent (checkInHandler body now s).2.
Proof.
  rewrite !key_consistent_lookup. intros Hs.
  unfold checkInHandler. destruct body as [req|]; [|done].
  case_decide; [done|]. cbn [snd Rooms].
  intros r room. rewrite lookup_insert. case_decide as Hr.
  - intros [= <-]. cbn [Name Users]. subst r.
    destruct (Rooms s !! CheckInRequest.RoomID req) as [room0|] eqn:Hroom0.
    + destruct (Hs _ _ Hroom0) as [Hname Hids]. split; [done|].
      intros u e. rewrite lookup_insert. case_decide; [by intros [= <-]|]. apply Hids.
    + split; [done|]. intros u e. cbn [Users].
      rewrite lookup_insert. case_decide; [by intros [= <-]|]. by rewrite lookup_empty.
  - apply Hs.
Qed.

(** A refresh copies the [ID] field of the entry it found. *)
Lemma updatePresenceHandler_key_consistent body now0 now1 s :
  key_consistent s → key_consistent (updatePresenceHandler body now0 now1 s).2.
Proof.
  rewrite !key_consistent_lookup. intros Hs.
  unfold updatePresenceHandler. destruct body as [req|]; [|done].
  case_decide; [done|].
  destruct (Rooms s !! UpdatePresenceRequest.RoomID req) as [room0|] eqn:Hroom0; [|done].
  destruct (Users room0 !! UpdatePresenceRequest.UserID req) as [e0|] eqn:He0; [|done].
  cbn [snd Rooms]. destruct (Hs _ _ Hroom0) as [Hname Hids].
  intros r room. rewrite lookup_insert. case_decide as Hr; [|apply Hs].
  intros [= <-]. cbn [Name Users]. subst r. split; [done|].
  intros u e. rewrite lookup_insert. case_decide as Hu; [|apply Hids].
  intros [= <-]. cbn [ID]. subst u. by apply Hids.
Qed.

(** Eviction only removes entries. *)
Lemma listRoomsHandler_key_consistent clk s :
  key_consistent s → key_consistent (listRoomsHandler clk s).2.
Proof.
  rewrite !key_consistent_lookup. intros Hs r room.
  rewrite listRoomsHandler_state.
  destruct (Rooms s !! r) as [room0|] eqn:Hroom0; [|done].
  intros [= <-]. destruct (Hs _ _ Hroom0) as [Hname Hids]. split; [done|].
  intros u e [He _]%map_lookup_filter_Some. by apply Hids.
Qed.

Lemma serve_key_consistent c s :
  key_consistent s → key_consistent (serve c s).2.
Proof.
  destruct c; cbn [serve].
  - apply checkInHandler_key_consistent.
  - apply updatePresenceHandler_key_consistent.
  - apply listRoomsHandler_key_consistent.
Qed.

Lemma serveAll_key_consistent cs s :
  key_consistent s → key_consistent (serveAll cs s).
Proof.
  revert s. induction cs as [|c cs IH]; intros s Hs; [done|].
  apply IH. by apply serve_key_consistent.
Qed.

(** C9. In every state the server reaches from the empty registry, by
    any sequence of check-in, refresh and list-rooms calls, a room stored
    under the registry key [r] has [Name = r], and an entry stored under
    the key [u] of that room's map has [ID = u]. *)
Theorem reachable_key_consistent (cs : list Call) (r u : string) (room : Room) (e : User) :
  Rooms (serveAll cs api) !! r = Some room →
  Name room = r ∧ (Users room !! u = Some e → ID e = u).
Proof.
  intros Hr.
  pose proof (serveAll_key_consistent cs api key_consistent_api) as Hk.
  rewrite key_consistent_lookup in Hk. destruct (Hk r room Hr) as [Hname Hids].
  split; [done|]. apply Hids.
Qed.

Lemma reachable_key_consistent_witness :
  Name {| Name := "r1"; Users := {[ "alice" := mkUser "alice" 300000000000%Z ]} |} = "r1".
Proof.
  apply (reachable_key_consistent
           [CheckIn (Some (CheckInRequest.mk "alice" "r1")) 0;
            UpdatePresence (Some (UpdatePresenceRequest.mk "alice" "r1" 0)) 0 0;
            ListRooms (λ _ _, 5%Z)]
           "r1" "alice" _ (mkUser "alice" 300000000000%Z)).
  vm_compute. reflexivity.
Defined.

(** * Further properties of the handlers *)

(** ** What a check-in leaves alone *)

(** X1. A check-in that passes validation touches one entry only: every
    other room of the registry is as before, the target room keeps its
    name (a new room is named by the room id) and every other entry of
    its map, and nothing is removed. *)
Theorem checkin_frame
    (req : CheckInRequest.t) (now : time.Time) (s : ConferenceAPI) :
  CheckInRequest.UserID req ≠ "" →
  CheckInRequest.RoomID req ≠ "" →
  let uid := CheckInRequest.UserID req in
  let rid := CheckInRequest.RoomID req in
  let s' := (checkInHandler (Some req) now s).2 in
  (∀ r, r ≠ rid → Rooms s' !! r = Rooms s !! r)
  ∧ ∃ room',
      Rooms s' !! rid = Some room'
      ∧ Name room' = from_option Name rid (Rooms s !! rid)
      ∧ ∀ u, u ≠ uid →
          Users room' !! u = Rooms s !! rid ≫= λ room, Users room !! u.
Proof.
  intros Hu Hr uid rid s'. destruct req as [u r].
  cbn [CheckInRequest.UserID CheckInRequest.RoomID] in *. subst uid rid s'.
  rewrite checkInHandler_valid by done. cbn [snd Rooms]. split.
  - intros r' Hne. by rewrite lookup_insert_ne.
  - eexists. split; [apply lookup_insert_eq|]. cbn [Name Users].
    destruct (Rooms s !! r) as [room|]; cbn; (split; [done|]);
      intros u' Hne; by rewrite lookup_insert_ne.
Qed.

Lemma checkin_frame_witness :
  ∃ room',
    Rooms (checkInHandler (Some (CheckInRequest.mk "bob" "r1")) 7 alice_in_r1).2 !! "r1"
    = Some room'
    ∧ Name room' = "r1"
    ∧ Users room' !! "alice" = Some (mkUser "alice" 300000000000).
Proof.
  destruct (checkin_frame (CheckInRequest.mk "bob" "r1") 7 alice_in_r1)
    as (_ & room' & Hroom & Hname & Hothers); [done..|].
  exists room'. split_and!; [exact Hroom|exact Hname|].
  rewrite (Hothers "alice") by done. vm_compute. reflexivity.
Defined.

(** X2. Check-ins of different users, or into different rooms, commute:
    the registry after the two calls is the same in either order. *)
Theorem checkins_commute
    (req1 req2 : CheckInRequest.t) (now1 now2 : time.Time) (s : ConferenceAPI) :
  CheckInRequest.UserID req1 ≠ CheckInRequest.UserID req2
  ∨ CheckInRequest.RoomID req1 ≠ CheckInRequest.RoomID req2 →
  (checkInHandler (Some req2) now2 (checkInHandler (Some req1) now1 s).2).2
  = (checkInHandler (Some req1) now1 (checkInHandler (Some req2) now2 s).2).2.
Proof.
  intros Hdiff. destruct req1 as [u1 r1], req2 as [u2 r2].
  cbn [CheckInRequest.UserID CheckInRequest.RoomID] in Hdiff.
  destruct (decide (u1 = "" ∨ r1 = "")) as [Hbad1|Hok1].
  { by rewrite !(checkInHandler_missing (CheckInRequest.mk u1 r1)). }
  destruct (decide (u2 = "" ∨ r2 = "")) as [Hbad2|Hok2].
  { by rewrite !(checkInHandler_missing (CheckInRequest.mk u2 r2)). }
  assert (u1 ≠ "" ∧ r1 ≠ "" ∧ u2 ≠ "" ∧ r2 ≠ "") as (? & ? & ? & ?) by tauto.
  rewrite !checkInHandler_valid by done. cbn [snd Rooms].
  apply ConferenceAPI_eq; cbn [Rooms]. destruct (decide (r1 = r2)) as [->|Hr].
  - assert (u1 ≠ u2) as Hu by (destruct Hdiff; done).
    rewrite !lookup_insert_eq, !insert_insert_eq. cbn [default Name Users].
    f_equal. f_equal. by apply insert_insert_ne.
  - rewrite !lookup_insert_ne by done. by apply insert_insert_ne.
Qed.

Lemma checkins_commute_witness :
  (checkInHandler (Some (CheckInRequest.mk "bob" "r1")) 2
     (checkInHandler (Some (CheckInRequest.mk "alice" "r1")) 1 api).2).2
  = (checkInHandler (Some (CheckInRequest.mk "alice" "r1")) 1
       (checkInHandler (Some (CheckInRequest.mk "bob" "r1")) 2 api).2).2.
Proof.
  apply (checkins_commute (CheckInRequest.mk "alice" "r1") (CheckInRequest.mk "bob" "r1")).
  left. done.
Defined.

(** ** What a listing reports and what it leaves behind *)


Lemma elem_of_keys `{Countable K} {A} (m : gmap K A) (k : K) :
  k ∈ (map_to_list m).*1 ↔ is_Some (m !! k).
Proof.
  rewrite list_elem_of_fmap. split.
  - intros ([k' x] & -> & Hin). apply elem_of_map_to_list in Hin. by exists x.
  - intros [x Hx]. exists (k, x). split; [done|]. by apply elem_of_map_to_list.
Qed.

Lemma keys_Permutation `{Countable K} {A B} (m1 : gmap K A) (m2 : gmap K B) :
  (∀ k, is_Some (m1 !! k) ↔ is_Some (m2 !! k)) →
  (map_to_list m1).*1 ≡ₚ (map_to_list m2).*1.
Proof.
  intros Hdom. apply NoDup_Permutation; [apply NoDup_fst_map_to_list..|].
  intros k. by rewrite !elem_of_keys.
Qed.

(** The user ids listed for a room are the keys the pass leaves in it. *)
Lemma rangeUsers_ids_keys now users :
  (rangeUsers now users).1 ≡ₚ (map_to_list (filter (alive now) users)).*1.
Proof.
  apply NoDup_Permutation; [apply rangeUsers_NoDup|apply NoDup_fst_map_to_list|].
  intros u. rewrite rangeUsers_ids, elem_of_keys. split.
  - intros (e & He & Ha). exists e. by apply map_lookup_filter_Some.
  - intros [e [He Ha]%map_lookup_filter_Some]. by exists e.
Qed.

(** X3. The reply of a listing describes the registry the listing leaves
    behind: it has one [RoomInfo] per room of the registry, and the user
    ids listed for a room, each listed once, are the keys of that room's
    map after the pass. *)
Theorem listing_matches_registry (clk : Clock) (s : ConferenceAPI) :
  let out := listRoomsHandler clk s in
  RoomID <$> roomsOf out.1 ≡ₚ (map_to_list (Rooms out.2)).*1
  ∧ ∀ info, info ∈ roomsOf out.1 →
      NoDup (UserIDs info)
      ∧ ∃ room', Rooms out.2 !! RoomID info = Some room'
                 ∧ UserIDs info ≡ₚ userIDsOf room'.
Proof.
  intros out. subst out. split.
  - rewrite listRoomsHandler_reply. cbn [roomsOf]. rewrite <- list_fmap_compose.
    change (RoomID ∘ infoOf clk) with (fst : string * Room → string).
    apply keys_Permutation. intros r. rewrite listRoomsHandler_state.
    by rewrite fmap_is_Some.
  - intros info (room & Hr & Hids)%elem_of_listRooms. rewrite Hids. split.
    + apply rangeUsers_NoDup.
    + exists (evicted clk (RoomID info) room). split.
      * by rewrite listRoomsHandler_state, Hr.
      * apply rangeUsers_ids_keys.
Qed.

(** X4. A listing only evicts: it neither adds nor removes a room, keeps
    every room's name, and what is left in a room's map are entries that
    were there before, unchanged. *)
Theorem listing_only_evicts (clk : Clock) (s : ConferenceAPI) (r : string) :
  let s' := (listRoomsHandler clk s).2 in
  (Rooms s' !! r = None ↔ Rooms s !! r = None)
  ∧ ∀ room room',
      Rooms s !! r = Some room → Rooms s' !! r = Some room' →
      Name room' = Name room ∧ Users room' ⊆ Users room.
Proof.
  intros s'. subst s'. rewrite listRoomsHandler_state. split.
  - by rewrite fmap_None.
  - intros room room' -> [= <-]. split; [done|]. apply map_filter_subseteq.
Qed.



(** X6. Listing with later clock readings subsumes listing with earlier
    ones: when every reading of the second pass is at or after the
    reading the first pass made for the same entry, the registry after
    both passes is the registry the second pass alone would leave. *)
Theorem listing_twice_later_clock (clk1 clk2 : Clock) (s : ConferenceAPI) :
  (∀ r u, (clk1 r u ≤ clk2 r u)%Z) →
  (listRoomsHandler clk2 (listRoomsHandler clk1 s).2).2 = (listRoomsHandler clk2 s).2.
Proof.
  intros Hle. apply ConferenceAPI_eq, map_eq. intros r.
  rewrite !listRoomsHandler_state.
  destruct (Rooms s !! r) as [room|]; [|done]. cbn. f_equal.
  unfold evicted. cbn. f_equal. apply map_eq. intros u.
  destruct (Users room !! u) as [e|] eqn:He.
  - destruct (decide (alive (clk2 r) (u, e))) as [Ha|Ha].
    + transitivity (Some e); [|symmetry]; apply map_lookup_filter_Some.
      * split; [|done]. apply map_lookup_filter_Some. split; [done|].
        unfold alive in *. cbn in *. specialize (Hle r u). lia.
      * done.
    + transitivity (@None User); [|symmetry]; apply map_lookup_filter_None; right.
      * intros e' [He' _]%map_lookup_filter_Some. congruence.
      * intros e' He'. congruence.
  - transitivity (@None User); [|symmetry]; apply map_lookup_filter_None; left.
    + apply map_lookup_filter_None. by left.
    + done.
Qed.

Lemma listing_twice_later_clock_witness :
  (listRoomsHandler (λ _ _, 300000000000%Z)
     (listRoomsHandler (λ _ _, 5%Z) alice_in_r1).2).2
  = (listRoomsHandler (λ _ _, 300000000000%Z) alice_in_r1).2.
Proof.
  apply (listing_twice_later_clock (λ _ _, 5%Z) (λ _ _, 300000000000%Z) alice_in_r1).
  intros r u. lia.
Defined.

(** ** Check-in, refresh and listing, one after the other *)

(** Whether a listing lists user [u] for room [r]. *)
Lemma listed_iff clk s r room u :
  Rooms s !! r = Some room →
  (∃ info, info ∈ roomsOf (listRoomsHandler clk s).1 ∧ RoomID info = r ∧ u ∈ UserIDs info)
  ↔ ∃ e, Users room !! u = Some e ∧ (clk r u < ExpiresAt e)%Z.
Proof.
  intros Hr. split.
  - intros (info & (room0 & Hr0 & Hids)%elem_of_listRooms & <- & Hu).
    rewrite Hr in Hr0. injection Hr0 as <-. rewrite Hids in Hu.
    by apply rangeUsers_ids in Hu.
  - intros Hu. exists (infoOf clk (r, room)). split_and!; [|done|].
    + apply elem_of_listRooms. by exists room.
    + by apply rangeUsers_ids.
Qed.

(** The entry a listing leaves under [u] in room [r]. *)
Lemma entry_after_listing clk s r room u :
  Rooms s !! r = Some room →
  Rooms (listRoomsHandler clk s).2 !! r ≫= (λ room', Users room' !! u)
  = Users room !! u ≫= λ e, if decide (clk r u < ExpiresAt e)%Z then Some e else None.
Proof.
  intros Hr. rewrite listRoomsHandler_state, Hr. cbn.
  destruct (Users room !! u) as [e|] eqn:He; cbn.
  - case_decide as Ha.
    + by apply map_lookup_filter_Some.
    + apply map_lookup_filter_None. right. intros e' He'. unfold alive. cbn. congruence.
  - apply map_lookup_filter_None. by left.
Qed.

(** X7. A user who checked in at [now] is listed in the room by every
    listing whose reading for the entry is before [now] plus five
    minutes, and the entry stays; a listing whose reading is at or after
    that instant does not list the user and removes the entry. *)
Theorem checkin_then_listing
    (u r : string) (now : time.Time) (clk : Clock) (s : ConferenceAPI) :
  u ≠ "" → r ≠ "" →
  let s1 := (checkInHandler (Some (CheckInRequest.mk u r)) now s).2 in
  let out := listRoomsHandler clk s1 in
  let entry := Rooms out.2 !! r ≫= λ room, Users room !! u in
  let listed := ∃ info, info ∈ roomsOf out.1 ∧ RoomID info = r ∧ u ∈ UserIDs info in
  ((clk r u < now + 300 * time.Second)%Z →
     listed ∧ entry = Some {| ID := u; ExpiresAt := now + 300 * time.Second |})
  ∧ ((now + 300 * time.Second ≤ clk r u)%Z → ¬ listed ∧ entry = None).
Proof.
  intros Hu Hr s1 out entry listed.
  destruct (checkInHandler_entry u r now s Hu Hr) as (room & Hroom & Hentry).
  fold s1 in Hroom. subst out entry listed.
  rewrite (listed_iff clk s1 r room u Hroom), (entry_after_listing clk s1 r room u Hroom).
  rewrite Hentry. cbn. change defaultTTL with (300 * time.Second)%Z.
  split; intros Hclk.
  - split; [eexists; split; [done|]; cbn; lia|]. by rewrite decide_True.
  - split; [intros (e & [= <-] & Hlt); cbn in Hlt; lia|]. by rewrite decide_False by lia.
Qed.

Lemma checkin_then_listing_witness :
  Rooms (listRoomsHandler (λ _ _, 300000000000%Z)
           (checkInHandler (Some (CheckInRequest.mk "alice" "r1")) 0 api).2).2 !! "r1"
  ≫= (λ room, Users room !! "alice")
  = None.
Proof.
  destruct (checkin_then_listing "alice" "r1" 0 (λ _ _, 300000000000%Z) api)
    as [_ Hgone]; [done..|].
  apply Hgone. vm_compute. discriminate.
Defined.

(** X8. After a refresh that finds the entry, with [ExpiresIn] positive
    and at most 9223372036 seconds, made at the reading [now1], a
    listing lists the user exactly when its reading for the entry is
    before [now1] plus [ExpiresIn] seconds, whatever expiry the entry
    had before the refresh. *)
Theorem refresh_then_listing
    (u r : string) (ttl : Z) (now0 now1 : time.Time) (clk : Clock)
    (s : ConferenceAPI) (room : Room) (e : User) :
  u ≠ "" → r ≠ "" → (0 < ttl ≤ 9223372036)%Z →
  Rooms s !! r = Some room → Users room !! u = Some e →
  let s1 := (updatePresenceHandler (Some (UpdatePresenceRequest.mk u r ttl)) now0 now1 s).2 in
  let out := listRoomsHandler clk s1 in
  ((∃ info, info ∈ roomsOf out.1 ∧ RoomID info = r ∧ u ∈ UserIDs info)
   ↔ (clk r u < now1 + ttl * time.Second)%Z)
  ∧ (Rooms out.2 !! r ≫= (λ room', Users room' !! u)
     = if decide (clk r u < now1 + ttl * time.Second)%Z
       then Some {| ID := ID e; ExpiresAt := now1 + ttl * time.Second |}
       else None).
Proof.
  intros Hu Hr Httl Hroom Huser s1 out. subst out s1.
  rewrite (updatePresenceHandler_found (UpdatePresenceRequest.mk u r ttl) _ _ _ room e)
    by done.
  cbn [snd UpdatePresenceRequest.UserID UpdatePresenceRequest.RoomID
       UpdatePresenceRequest.ExpiresIn].
  rewrite refreshExpiry_seconds by done.
  set (room1 := {| Name := Name room;
                   Users := <[u := {| ID := ID e; ExpiresAt := now1 + ttl * time.Second |}]>
                              (Users room) |}).
  set (s1 := {| Rooms := <[r := room1]> (Rooms s) |}).
  assert (Rooms s1 !! r = Some room1) as Hroom1 by apply lookup_insert_eq.
  assert (Users room1 !! u = Some {| ID := ID e; ExpiresAt := now1 + ttl * time.Second |})
    as Huser1 by apply lookup_insert_eq.
  rewrite (listed_iff clk s1 r room1 u Hroom1), (entry_after_listing clk s1 r room1 u Hroom1).
  rewrite Huser1. cbn. split; [|done]. split.
  - by intros (e1 & [= <-] & Hlt).
  - intros Hlt. by eexists.
Qed.

Lemma refresh_then_listing_witness :
  Rooms (listRoomsHandler (λ _ _, 15000000000%Z)
           (updatePresenceHandler (Some (UpdatePresenceRequest.mk "alice" "r1" 10))
              5000000000 5000000000 alice_in_r1).2).2 !! "r1"
  ≫= (λ room, Users room !! "alice")
  = None.
Proof.
  destruct (refresh_then_listing "alice" "r1" 10 5000000000 5000000000
              (λ _ _, 15000000000%Z) alice_in_r1
              {| Name := "r1"; Users := {[ "alice" := mkUser "alice" 300000000000 ]} |}
              (mkUser "alice" 300000000000)) as [_ Hentry];
    [done|done|lia|vm_compute; reflexivity|reflexivity|].
  rewrite Hentry. vm_compute. reflexivity.
Defined.

(** X9. A user whose entry a listing has evicted cannot be refreshed:
    the refresh replies [UserNotFound] (the room is still found) and
    leaves the registry as the listing left it. *)
Theorem evicted_user_cannot_refresh
    (req : UpdatePresenceRequest.t) (now0 now1 : time.Time) (clk : Clock)
    (s : ConferenceAPI) (room : Room) (e : User) :
  let u := UpdatePresenceRequest.UserID req in
  let r := UpdatePresenceRequest.RoomID req in
  u ≠ "" → r ≠ "" →
  Rooms s !! r = Some room → Users room !! u = Some e →
  (ExpiresAt e ≤ clk r u)%Z →
  let s1 := (listRoomsHandler clk s).2 in
  updatePresenceHandler (Some req) now0 now1 s1 = (UserNotFound, s1).
Proof.
  intros u r Hu Hr Hroom Huser Hexp s1. subst u r s1.
  apply (updatePresenceHandler_no_user req now0 now1 _
           (evicted clk (UpdatePresenceRequest.RoomID req) room)); [done..| |].
  - by rewrite listRoomsHandler_state, Hroom.
  - cbn. apply map_lookup_filter_None. right. intros e' He' Ha.
    unfold alive in Ha. cbn in Ha. simplify_eq. lia.
Qed.

Lemma evicted_user_cannot_refresh_witness :
  (updatePresenceHandler (Some (UpdatePresenceRequest.mk "alice" "r1" 60)) 1 2
     (listRoomsHandler (λ _ _, 300000000000%Z) alice_in_r1).2).1
  = UserNotFound.
Proof.
  rewrite (evicted_user_cannot_refresh (UpdatePresenceRequest.mk "alice" "r1" 60) 1 2
             (λ _ _, 300000000000%Z) alice_in_r1
             {| Name := "r1"; Users := {[ "alice" := mkUser "alice" 300000000000 ]} |}
             (mkUser "alice" 300000000000));
    [reflexivity|done|done|vm_compute; reflexivity|reflexivity|cbn; lia].
Defined.

(** ** Reachable registries *)

Lemma checkInHandler_nonempty_keys body now s :
  nonempty_keys s → nonempty_keys (checkInHandler body now s).2.
Proof.
  intros [Hroom Husers]. unfold checkInHandler. destruct body as [req|]; [|done].
  case_decide as Hbad; [done|]. cbn [snd]. split; cbn [Rooms].
  - rewrite lookup_insert_ne; [done|]. intros Heq. apply Hbad. by right.
  - intros r room. rewrite lookup_insert. case_decide; [|apply Husers].
    intros [= <-]. cbn [Users]. rewrite lookup_insert_ne.
    + destruct (Rooms s !! CheckInRequest.RoomID req) as [room0|] eqn:Hr0; [|done].
      by eapply Husers.
    + intros Heq. apply Hbad. by left.
Qed.

Lemma updatePresenceHandler_nonempty_keys body now0 now1 s :
  nonempty_keys s → nonempty_keys (updatePresenceHandler body now0 now1 s).2.
Proof.
  intros [Hroom Husers]. unfold updatePresenceHandler. destruct body as [req|]; [|done].
  case_decide as Hbad; [done|].
  destruct (Rooms s !! UpdatePresenceRequest.RoomID req) as [room0|] eqn:Hr0; [|done].
  destruct (Users room0 !! UpdatePresenceRequest.UserID req) as [e0|] eqn:He0; [|done].
  cbn [snd]. split; cbn [Rooms].
  - rewrite lookup_insert_ne; [done|]. intros Heq. apply Hbad. by right.
  - intros r room. rewrite lookup_insert. case_decide; [|apply Husers].
    intros [= <-]. cbn [Users]. rewrite lookup_insert_ne; [by eapply Husers|].
    intros Heq. apply Hbad. by left.
Qed.

Lemma listRoomsHandler_nonempty_keys clk s :
  nonempty_keys s → nonempty_keys (listRoomsHandler clk s).2.
Proof.
  intros [Hroom Husers]. split.
  - by rewrite listRoomsHandler_state, Hroom.
  - intros r room. rewrite listRoomsHandler_state.
    destruct (Rooms s !! r) as [room0|] eqn:Hr0; [|done]. intros [= <-]. cbn.
    apply map_lookup_filter_None. left. by eapply Husers.
Qed.

(** X10. However the registry was reached from the empty one, no room is
    stored under the empty room id and no entry under the empty user
    id: the tests of lines 50 and 96 keep them out. *)
Theorem reachable_nonempty_keys (cs : list Call) :
  Rooms (serveAll cs api) !! "" = None
  ∧ ∀ r room, Rooms (serveAll cs api) !! r = Some room → Users room !! "" = None.
Proof.
  assert (∀ s, nonempty_keys s → nonempty_keys (serveAll cs s)) as Hall.
  { induction cs as [|c cs IH]; intros s Hs; [done|]. apply IH.
    destruct c; cbn [serve].
    - by apply checkInHandler_nonempty_keys.
    - by apply updatePresenceHandler_nonempty_keys.
    - by apply listRoomsHandler_nonempty_keys. }
  apply Hall. split; [done|]. intros r room H. cbn in H. by rewrite lookup_empty in H.
Qed.

Lemma serve_dom c s :
  dom (Rooms (serve c s).2)
  = dom (Rooms s) ∪ from_option singleton ∅ (roomCheckedIn c).
Proof.
  destruct c as [[req|] now|[req|] now0 now1|clk]; cbn [serve roomCheckedIn from_option].
  - unfold checkInHandler. case_decide; cbn [from_option snd Rooms].
    + set_solver.
    + rewrite dom_insert_L. set_solver.
  - cbn. set_solver.
  - unfold updatePresenceHandler. case_decide; [cbn; set_solver|].
    destruct (Rooms s !! UpdatePresenceRequest.RoomID req) as [room|] eqn:Hr;
      [|cbn; set_solver].
    destruct (Users room !! UpdatePresenceRequest.UserID req); [|cbn; set_solver].
    cbn [snd Rooms]. rewrite dom_insert_L.
    assert (UpdatePresenceRequest.RoomID req ∈ dom (Rooms s)) by (by apply elem_of_dom).
    set_solver.
  - cbn. set_solver.
  - rewrite union_empty_r_L. apply set_eq. intros r.
    by rewrite !elem_of_dom, listRoomsHandler_state, fmap_is_Some.
Qed.

Lemma serveAll_dom cs s :
  dom (Rooms (serveAll cs s)) = dom (Rooms s) ∪ roomsCheckedIn cs.
Proof.
  revert s. induction cs as [|c cs IH]; intros s.
  - unfold roomsCheckedIn. cbn. set_solver.
  - change (serveAll (c :: cs) s) with (serveAll cs (serve c s).2).
    rewrite IH, serve_dom. unfold roomsCheckedIn. cbn [omap list_omap].
    destruct (roomCheckedIn c); cbn; set_solver.
Qed.

(** X11. The rooms of the registry are exactly the room ids of the
    check-ins that passed validation: a refresh or a listing never adds
    a room, a rejected check-in adds none, and no call removes one. *)
Theorem rooms_are_the_checked_in_ones (cs : list Call) (s : ConferenceAPI) :
  dom (Rooms (serveAll cs s)) = dom (Rooms s) ∪ roomsCheckedIn cs.
Proof. apply serveAll_dom. Qed.

(** X12. A refresh that finds its entry and whose [ExpiresIn] is at most
    9223372036 stores, under the entry's old [ID]: the second clock
    reading plus [ExpiresIn] seconds when [ExpiresIn] is positive, and
    the first clock reading plus five minutes otherwise. *)
Theorem refresh_stores_expiry
    (req : UpdatePresenceRequest.t) (now0 now1 : time.Time)
    (s : ConferenceAPI) (room : Room) (e : User) :
  let u := UpdatePresenceRequest.UserID req in
  let r := UpdatePresenceRequest.RoomID req in
  let ttl := UpdatePresenceRequest.ExpiresIn req in
  u ≠ "" → r ≠ "" → (ttl ≤ 9223372036)%Z →
  Rooms s !! r = Some room → Users room !! u = Some e →
  Rooms (updatePresenceHandler (Some req) now0 now1 s).2 !! r
  ≫= (λ room', Users room' !! u)
  = Some {| ID := ID e;
            ExpiresAt := if decide (0 < ttl)%Z
                         then now1 + ttl * time.Second
                         else now0 + 300 * time.Second |}.
Proof.
  intros u r ttl Hu Hr Httl Hroom Huser. subst u r ttl.
  rewrite (updatePresenceHandler_found req _ _ _ room e) by done. cbn [snd Rooms].
  rewrite lookup_insert_eq. cbn. rewrite lookup_insert_eq. f_equal. f_equal.
  case_decide.
  - by apply refreshExpiry_seconds.
  - apply refreshExpiry_default. lia.
Qed.

Lemma refresh_stores_expiry_witness :
  Rooms (updatePresenceHandler (Some (UpdatePresenceRequest.mk "alice" "r1" 10)) 7 8
           alice_in_r1).2 !! "r1"
  ≫= (λ room', Users room' !! "alice")
  = Some {| ID := "alice"; ExpiresAt := 10000000008 |}.
Proof.
  apply (refresh_stores_expiry (UpdatePresenceRequest.mk "alice" "r1" 10) 7 8 alice_in_r1
           {| Name := "r1"; Users := {[ "alice" := mkUser "alice" 300000000000 ]} |}
           (mkUser "alice" 300000000000));
    [done|done|cbn; lia|vm_compute; reflexivity|reflexivity].
Defined.

(** X13. The status of a reply tells what happened: it is 400 exactly
    when the body did not decode or an id is empty, 404 exactly when a
    well-formed refresh misses its room or its user, and 200 otherwise;
    a check-in and a listing are never answered with 404. *)
Theorem status_codes (c : Call) (s : ConferenceAPI) :
  (statusCode (serve c s).1 = 400%Z ↔ invalidBody c)
  ∧ (statusCode (serve c s).1 = 404%Z ↔ refreshMisses c s)
  ∧ (statusCode (serve c s).1 = 200%Z ↔ ¬ invalidBody c ∧ ¬ refreshMisses c s).
Proof.
  destruct c as [[req|] now|[req|] now0 now1|clk];
    cbn [serve invalidBody refreshMisses].
  - unfold checkInHandler. case_decide; cbn; intuition congruence.
  - cbn. intuition congruence.
  - unfold updatePresenceHandler. case_decide as Hbad; [cbn; intuition congruence|].
    destruct (Rooms s !! UpdatePresenceRequest.RoomID req) as [room|]; cbn;
      [|intuition congruence].
    destruct (Users room !! UpdatePresenceRequest.UserID req); cbn; intuition congruence.
  - cbn. intuition congruence.
  - rewrite listRoomsHandler_reply. cbn. intuition congruence.
Qed.

(** ** Many check-ins in a row *)

Lemma lookupEntry_checkIn body now s r u :
  lookupEntry (checkInHandler body now s).2 r u
  = match entryFor r u (body, now) with
    | Some e => Some e
    | None => lookupEntry s r u
    end.
Proof.
  unfold entryFor, lookupEntry. cbn [fst snd]. destruct body as [[u0 r0]|]; [|done].
  cbn [CheckInRequest.UserID CheckInRequest.RoomID].
  destruct (decide (u0 = "" ∨ r0 = "")) as [Hbad|Hok].
  { rewrite checkInHandler_missing by done. rewrite decide_False by tauto. done. }
  assert (u0 ≠ "" ∧ r0 ≠ "") as [Hu Hr] by tauto.
  rewrite checkInHandler_valid by done. cbn [snd Rooms].
  destruct (decide (r0 = r)) as [->|Hr'].
  - rewrite lookup_insert_eq. cbn. destruct (decide (u0 = u)) as [->|Hu'].
    + rewrite lookup_insert_eq, decide_True by done. done.
    + rewrite lookup_insert_ne, decide_False by tauto.
      by destruct (Rooms s !! r).
  - rewrite lookup_insert_ne, decide_False by tauto. done.
Qed.

Lemma lookupEntry_checkIns reqs s r u :
  lookupEntry (serveAll (checkInCalls reqs) s) r u
  = match last (omap (entryFor r u) reqs) with
    | Some e => Some e
    | None => lookupEntry s r u
    end.
Proof.
  revert s. induction reqs as [|[body now] reqs IH]; intros s; [done|].
  change (serveAll (checkInCalls ((body, now) :: reqs)) s)
    with (serveAll (checkInCalls reqs) (checkInHandler body now s).2).
  rewrite IH, lookupEntry_checkIn. cbn [omap list_omap].
  destruct (entryFor r u (body, now)) as [e|]; [|done].
  rewrite last_cons. by destruct (last (omap (entryFor r u) reqs)).
Qed.

(** X14. After any sequence of check-ins, valid or not, of any users
    into any rooms, the entry of user [u] in room [r] is the one written
    by the last request of the sequence that is valid and is for [u] in
    [r]; if there is none, the entry is as it was before the sequence. *)
Theorem checkins_last_request_wins
    (reqs : list (option CheckInRequest.t * time.Time)) (s : ConferenceAPI)
    (r u : string) :
  lookupEntry (serveAll (checkInCalls reqs) s) r u
  = match last (omap (entryFor r u) reqs) with
    | Some e => Some e
    | None => lookupEntry s r u
    end.
Proof. apply lookupEntry_checkIns. Qed.

(** ** Registries compared room by room and entry by entry *)

Lemma registry_ext (s1 s2 : ConferenceAPI) :
  (∀ r, roomName s1 r = roomName s2 r) →
  (∀ r u, lookupEntry s1 r u = lookupEntry s2 r u) →
  s1 = s2.
Proof.
  intros Hnames Hentries. apply ConferenceAPI_eq, map_eq. intros r.
  specialize (Hnames r). pose proof (Hentries r) as He.
  unfold roomName, lookupEntry in *.
  destruct (Rooms s1 !! r) as [[n1 us1]|], (Rooms s2 !! r) as [[n2 us2]|];
    cbn in *; try done.
  injection Hnames as ->. f_equal. f_equal. by apply map_eq.
Qed.

Lemma elem_of_roomsCheckedIn reqs r :
  r ∈ roomsCheckedIn (checkInCalls reqs) ↔ ∃ rq, rq ∈ reqs ∧ roomFor rq = Some r.
Proof.
  unfold roomsCheckedIn, checkInCalls. rewrite elem_of_list_to_set, list_elem_of_omap.
  split.
  - intros (c & (rq & -> & Hrq)%list_elem_of_fmap & Hc). by exists rq.
  - intros (rq & Hrq & Hr). exists (CheckIn rq.1 rq.2). split; [|done].
    apply list_elem_of_fmap. by exists rq.
Qed.

Lemma lookupEntry_api r u : lookupEntry api r u = None.
Proof. done. Qed.

(** The rooms of the registry served sequentially. *)
Lemma roomName_sequentially reqs r :
  roomName (sequentially reqs) r
  = if decide (r ∈ roomsCheckedIn (checkInCalls reqs)) then Some r else None.
Proof.
  unfold roomName, sequentially.
  pose proof (serveAll_dom (checkInCalls reqs) api) as Hdom.
  pose proof (serveAll_key_consistent (checkInCalls reqs) api key_consistent_api) as Hk.
  rewrite key_consistent_lookup in Hk.
  assert (r ∈ dom (Rooms (serveAll (checkInCalls reqs) api))
          ↔ r ∈ roomsCheckedIn (checkInCalls reqs)) as Hr.
  { rewrite Hdom. cbn. set_solver. }
  rewrite elem_of_dom in Hr.
  destruct (Rooms (serveAll (checkInCalls reqs) api) !! r) as [room|] eqn:Hroom; cbn.
  - rewrite decide_True by (apply Hr; by eexists).
    f_equal. by apply (Hk r room).
  - rewrite decide_False; [done|]. intros H%Hr. by destruct H.
Qed.

(** ** Interleaved check-ins: the invariant *)

Module ConcFacts.
Import Conc.

Lemma lookup_goto t l σ t' th' :
  goto t l σ !! t' = Some th' →
  (t' = t ∧ ∃ th, threads σ !! t = Some th ∧ th' = jump th l)
  ∨ (t' ≠ t ∧ threads σ !! t' = Some th').
Proof.
  unfold goto. destruct (decide (t = t')) as [->|Hne].
  - rewrite list_lookup_alter_eq. intros (th & Hth & ->)%fmap_Some. left. eauto.
  - rewrite list_lookup_alter_ne by done. intros H. right. auto.
Qed.

Lemma lookup_goto_eq t l σ th :
  threads σ !! t = Some th → goto t l σ !! t = Some (jump th l).
Proof. intros H. unfold goto. rewrite list_lookup_alter_eq. by apply fmap_Some; eauto. Qed.

Lemma lookup_goto_ne t l σ t' :
  t' ≠ t → goto t l σ !! t' = threads σ !! t'.
Proof. intros H. unfold goto. by rewrite list_lookup_alter_ne. Qed.

Lemma roomID_jump th l : roomID (jump th l) = roomID th.
Proof. done. Qed.

Lemma thread_ok_ext σ σ' t th :
  api σ' = api σ → names σ' = names σ → thread_ok σ t th → thread_ok σ' t th.
Proof. unfold thread_ok. by intros -> ->. Qed.

(** A step that leaves the registry and the room ids alone, taken by a
    thread that is not about to register a room. *)
Lemma wf_local σ t th l :
  wf σ → threads σ !! t = Some th →
  (∀ l0, pc th ≠ L69 l0) →
  ∀ σ', api σ' = api σ → names σ' = names σ → threads σ' = goto t l σ →
  thread_ok σ' t (jump th l) → wf σ'.
Proof.
  intros [Hnd Hreg Hown Hths] Hth Hpc σ' Hapi Hnames Hts Hok.
  constructor.
  - by rewrite Hnames.
  - rewrite Hapi, Hnames. apply Hreg.
  - rewrite Hapi, Hnames, Hts. intros l0 r Hl0.
    destruct (Hown l0 r Hl0) as [?|(t0 & th0 & Ht0 & Hpc0 & Hr0)]; [by left|].
    right. exists t0, th0. split; [|done].
    rewrite lookup_goto_ne; [done|]. intros ->.
    rewrite Hth in Ht0. injection Ht0 as <-. exact (Hpc _ Hpc0).
  - rewrite Hts. intros t' th' [[-> (th0 & Hth0 & ->)]|[Hne Hth']]%lookup_goto.
    + by simplify_eq.
    + eapply thread_ok_ext; [done..|]. by apply Hths.
Qed.


(** Mutual exclusion on the registry: two threads inside the critical
    section are the same thread. *)
Lemma critical_excl σ t t' th th' :
  wf σ → threads σ !! t = Some th → threads σ !! t' = Some th' →
  inCritical (pc th) = true → inCritical (pc th') = true → t' = t.
Proof.
  intros Hwf Hth Hth' Hc Hc'.
  destruct (wf_threads _ Hwf t th Hth) as [H _].
  destruct (wf_threads _ Hwf t' th' Hth') as [H' _].
  specialize (H Hc). specialize (H' Hc'). congruence.
Qed.

Lemma names_insert σ l o o' :
  heap σ !! l = Some o → Name o' = Name o → Name <$> <[l := o']> (heap σ) = names σ.
Proof.
  intros H Hn. unfold names. rewrite list_fmap_insert, Hn.
  apply list_insert_id. by rewrite list_lookup_fmap, H.
Qed.


(** A step that changes nothing but [RoomLock], taken by the only thread
    that is or comes to be inside the critical section. *)
Lemma wf_lock σ t th l m :
  wf σ → threads σ !! t = Some th →
  (∀ l0, pc th ≠ L69 l0) →
  (∀ t' th', t' ≠ t → threads σ !! t' = Some th' → inCritical (pc th') = false) →
  thread_ok {| api := {| Rooms := Rooms (api σ); RoomLock := m |};
               heap := heap σ; threads := goto t l σ |} t (jump th l) →
  wf {| api := {| Rooms := Rooms (api σ); RoomLock := m |};
        heap := heap σ; threads := goto t l σ |}.
Proof.
  intros [Hnd Hreg Hown Hths] Hth Hpc Hothers Hok. constructor; cbn.
  - done.
  - done.
  - intros l0 r Hl0.
    destruct (Hown l0 r Hl0) as [?|(t0 & th0 & Ht0 & Hpc0 & Hr0)]; [by left|].
    right. exists t0, th0. split; [|done].
    rewrite lookup_goto_ne; [done|]. intros ->.
    rewrite Hth in Ht0. injection Ht0 as <-. exact (Hpc _ Hpc0).
  - intros t' th' [[-> (th0 & Hth0 & ->)]|[Hne Hth']]%lookup_goto.
    + by simplify_eq.
    + destruct (Hths t' th' Hth') as [_ Hpos]. split; [|exact Hpos].
      rewrite (Hothers t' th' Hne Hth'). done.
Qed.

Lemma lookup_names_app σ l r x :
  names σ !! l = Some r → (names σ ++ [x]) !! l = Some r.
Proof. apply lookup_app_l_Some. Qed.

Lemma step_wf t σ σ' : wf σ → step t σ = Some σ' → wf σ'.
Proof.
  intros Hwf. unfold step. destruct (threads σ !! t) as [th|] eqn:Hth; [|done].
  cbn [mbind option_bind].
  pose proof (wf_threads _ Hwf t th Hth) as [Hcrit Hpos].
  destruct (pc th) as [| | | |l|l|l|l|l|l|ol rep] eqn:Hpc.
  - (* L44 *)
    destruct (body th) as [req|]; [case_decide|]; intros [= <-];
      (eapply (wf_local σ t th); [done|done|by rewrite Hpc|done..|by split]).
  - (* L62 *)
    destruct (RoomLock (api σ)) as [holder|] eqn:Hlock; [done|]. intros [= <-].
    apply (wf_lock σ t th); [done|done|by rewrite Hpc| |by split].
    intros t' th' Hne Hth'. destruct (wf_threads _ Hwf t' th' Hth') as [Hc _].
    destruct (inCritical (pc th')); [|done]. specialize (Hc eq_refl). congruence.
  - (* L63 *)
    destruct (Rooms (api σ) !! roomID th) as [l|] eqn:Hroom; intros [= <-];
      (eapply (wf_local σ t th); [done|done|by rewrite Hpc|done..|]);
      (split; [intros _; by apply Hcrit|done]).
  - (* L65 *)
    intros [= <-]. destruct Hwf as [Hnd Hreg Hown Hths].
    assert (names {| api := api σ;
                     heap := heap σ ++ [{| Name := roomID th; Users := ∅; UserLock := None |}];
                     threads := goto t (L69 (length (heap σ))) σ |}
            = names σ ++ [roomID th]) as Hnames
      by (unfold names; cbn; by rewrite fmap_app).
    assert (length (names σ) = length (heap σ)) as Hlen
      by (unfold names; by rewrite length_fmap).
    constructor; rewrite ?Hnames; cbn [api threads].
    + apply NoDup_app. split_and!; [done| |apply NoDup_singleton].
      intros r Hr ->%list_elem_of_singleton.
      apply list_elem_of_lookup in Hr as [l0 Hl0].
      destruct (Hown l0 _ Hl0) as [?|(t0 & th0 & Ht0 & Hpc0 & Hr0)]; [congruence|].
      assert (t0 = t) as ->.
      { eapply (critical_excl σ t t0 th th0); [by constructor|done..| |].
        - by rewrite Hpc. - by rewrite Hpc0. }
      congruence.
    + intros r l Hr. by apply lookup_names_app, Hreg.
    + intros l0 r [Hl0|[Hl0 Hr]]%lookup_app_Some.
      * destruct (Hown l0 r Hl0) as [?|(t0 & th0 & Ht0 & Hpc0 & Hr0)]; [by left|].
        right. exists t0, th0. split; [|done].
        rewrite lookup_goto_ne; [done|]. intros ->. congruence.
      * right. exists t, (jump th (L69 (length (heap σ)))).
        apply list_lookup_singleton_Some in Hr as [Hz <-].
        split_and!; [by apply lookup_goto_eq| |done].
        cbn. f_equal. lia.
    + intros t' th' [[-> (th0 & Hth0 & ->)]|[Hne Hth']]%lookup_goto.
      * simplify_eq. split; [intros _; by apply Hcrit|].
        cbn [pc jump api]. split; [done|].
        rewrite Hnames, <- Hlen. apply lookup_app_Some. right.
        split; [lia|]. by rewrite Nat.sub_diag.
      * destruct (Hths t' th' Hth') as [Hc Hp]. split; [done|].
        destruct (pc th'); try done. destruct Hp as [Hp1 Hp2].
        split; [done|]. rewrite Hnames. by apply lookup_names_app.
  - (* L69 *)
    intros [= <-]. destruct Hpos as [Habsent Hfresh].
    pose proof Hwf as [Hnd Hreg Hown Hths].
    constructor; cbn [api threads Rooms RoomLock]; change (names _) with (names σ).
    + done.
    + intros r l'. rewrite lookup_insert. case_decide as Hr.
      * intros [= <-]. by subst r.
      * apply Hreg.
    + intros l0 r Hl0.
      destruct (Hown l0 r Hl0) as [Hr|(t0 & th0 & Ht0 & Hpc0 & Hr0)].
      * left. rewrite lookup_insert_ne; [done|]. intros <-. congruence.
      * assert (t0 = t) as ->.
        { eapply (critical_excl σ t t0 th th0); [done..| |].
          - by rewrite Hpc. - by rewrite Hpc0. }
        simplify_eq. rewrite Hpc in Hpc0. injection Hpc0 as <-.
        left. apply lookup_insert_eq.
    + intros t' th' [[-> (th0 & Hth0 & ->)]|[Hne Hth']]%lookup_goto.
      * simplify_eq. split; [intros _; by apply Hcrit|]. cbn. apply lookup_insert_eq.
      * destruct (Hths t' th' Hth') as [Hc Hp]. split; [done|].
        assert (inCritical (pc th') = false) as Hnc.
        { destruct (inCritical (pc th')) eqn:Hc'; [|done]. destruct Hne.
          eapply (critical_excl σ t t'); [done..|by rewrite Hpc|done]. }
        assert (∀ l', Rooms (api σ) !! roomID th' = Some l' →
                      <[roomID th := l]> (Rooms (api σ)) !! roomID th' = Some l') as Hkeep.
        { intros l' Hl'. rewrite lookup_insert_ne; [done|]. intros Heq. congruence. }
        destruct (pc th') as [| | | |?|?|?|?|?|?|[?|] ?]; cbn in Hnc; try done; by apply Hkeep.
  - (* L71 *)
    intros [= <-].
    apply (wf_lock σ t th); [done|done|by rewrite Hpc| |by split].
    intros t' th' Hne Hth'. destruct (inCritical (pc th')) eqn:Hc'; [|done].
    destruct Hne. eapply (critical_excl σ t t'); [done..|by rewrite Hpc|done].
  - (* L73 *)
    destruct (heap σ !! l) as [o|] eqn:Ho; [|done]. cbn [mbind option_bind].
    destruct (UserLock o); [done|]. intros [= <-].
    eapply (wf_local σ t th); [done|done|by rewrite Hpc|done| |done|by split].
    by eapply names_insert.
  - (* L74 *)
    destruct (heap σ !! l) as [o|] eqn:Ho; [|done]. cbn [mbind option_bind].
    intros [= <-].
    eapply (wf_local σ t th); [done|done|by rewrite Hpc|done| |done|by split].
    by eapply names_insert.
  - (* L75 *)
    destruct (heap σ !! l) as [o|] eqn:Ho; [|done]. cbn [mbind option_bind].
    intros [= <-].
    eapply (wf_local σ t th); [done|done|by rewrite Hpc|done| |done|by split].
    by eapply names_insert.
  - (* L77 *)
    intros [= <-].
    eapply (wf_local σ t th); [done|done|by rewrite Hpc|done..|by split].
  - done.
Qed.


(** [step] computes the relation [Step]. *)
Lemma step_Step t σ σ' :
  step t σ = Some σ' →
  ∃ th l', threads σ !! t = Some th
           ∧ Step t σ th l' (api σ') (heap σ')
           ∧ threads σ' = goto t l' σ.
Proof.
  unfold step. destruct (threads σ !! t) as [th|] eqn:Hth; [|done].
  cbn [mbind option_bind]. intros Hstep. exists th.
  destruct (pc th) as [| | | |l|l|l|l|l|l|ol rep] eqn:Hpc.
  - destruct (body th) as [req|] eqn:Hbody; [case_decide|]; injection Hstep as <-;
      eexists; (split; [done|]); (split; [|done]); cbn.
    + by eapply Step_rejected.
    + by eapply Step_accepted.
    + by eapply Step_undecoded.
  - destruct (RoomLock (api σ)) eqn:Hlock; [done|]. injection Hstep as <-.
    eexists; (split; [done|]); (split; [|done]); cbn. by apply Step_lock.
  - destruct (Rooms (api σ) !! roomID th) as [l|] eqn:Hroom; injection Hstep as <-;
      eexists; (split; [done|]); (split; [|done]); cbn.
    + by apply Step_found.
    + by apply Step_not_found.
  - injection Hstep as <-.
    eexists; (split; [done|]); (split; [|done]); cbn. by apply Step_alloc.
  - injection Hstep as <-.
    eexists; (split; [done|]); (split; [|done]); cbn. by apply Step_register.
  - injection Hstep as <-.
    eexists; (split; [done|]); (split; [|done]); cbn. by apply Step_unlock.
  - destruct (heap σ !! l) as [o|] eqn:Ho; [|done]. cbn [mbind option_bind] in Hstep.
    destruct (UserLock o) eqn:Hlock; [done|]. injection Hstep as <-.
    eexists; (split; [done|]); (split; [|done]); cbn. by apply Step_room_lock.
  - destruct (heap σ !! l) as [o|] eqn:Ho; [|done]. cbn [mbind option_bind] in Hstep.
    injection Hstep as <-.
    eexists; (split; [done|]); (split; [|done]); cbn. by apply Step_write.
  - destruct (heap σ !! l) as [o|] eqn:Ho; [|done]. cbn [mbind option_bind] in Hstep.
    injection Hstep as <-.
    eexists; (split; [done|]); (split; [|done]); cbn. by apply Step_room_unlock.
  - injection Hstep as <-.
    eexists; (split; [done|]); (split; [|done]); cbn. by apply Step_reply.
  - done.
Qed.

(** Once assigned, the local [room] is not assigned again. *)
Lemma Step_roomPtr t σ th l' a h l :
  Step t σ th l' a h → roomPtr (pc th) = Some l → roomPtr l' = Some l.
Proof. intros [] Hptr; rewrite H in Hptr; cbn in *; congruence. Qed.

Lemma Step_work t σ th l' a h :
  Step t σ th l' a h → remaining l' < remaining (pc th).
Proof. intros []; rewrite H; cbn; lia. Qed.

(** A statement leaves the room ids as they are, or allocates. *)
Lemma Step_names t σ th l' a h :
  Step t σ th l' a h →
  Name <$> h = names σ
  ∨ (pc th = L65 ∧ l' = L69 (length (heap σ)) ∧ Name <$> h = names σ ++ [roomID th]).
Proof.
  intros []; try (by left).
  - right. split_and!; [done..|]. unfold names. by rewrite fmap_app.
  - left. by eapply names_insert.
  - left. by eapply names_insert.
  - left. by eapply names_insert.
Qed.


Section step_preserves.
Context (t : tid) (σ σ' : State) (th : Thread) (l' : Label).
Context (Hth : threads σ !! t = Some th).
Context (HStep : Step t σ th l' (api σ') (heap σ')).
Context (Hthreads : threads σ' = goto t l' σ).

(** The thread [t0] after the step, with what is stable of it. *)
Lemma thread_after t0 th0 :
  threads σ !! t0 = Some th0 →
  ∃ th0', threads σ' !! t0 = Some th0'
          ∧ body th0' = body th0 ∧ now th0' = now th0
          ∧ (t0 ≠ t → th0' = th0)
          ∧ (t0 = t → pc th0' = l')
          ∧ ∀ l, roomPtr (pc th0) = Some l → roomPtr (pc th0') = Some l.
Proof.
  intros Hth0. rewrite Hthreads. destruct (decide (t0 = t)) as [->|Hne].
  - exists (jump th l'). rewrite Hth in Hth0. injection Hth0 as <-.
    split_and!; [by apply lookup_goto_eq|done..| |].
    + done.
    + intros l. by eapply Step_roomPtr.
  - exists th0. by rewrite lookup_goto_ne.
Qed.

Lemma thread_before t0 th0' :
  threads σ' !! t0 = Some th0' →
  (t0 = t ∧ th0' = jump th l') ∨ (t0 ≠ t ∧ threads σ !! t0 = Some th0').
Proof.
  rewrite Hthreads. intros [[-> (th1 & Hth1 & ->)]|[Hne H]]%lookup_goto.
  - left. rewrite Hth in Hth1. by injection Hth1 as <-.
  - by right.
Qed.

Lemma step_tracked : tracked σ → tracked σ'.
Proof.
  intros Htr l r. unfold names at 1.
  destruct (Step_names _ _ _ _ _ _ HStep) as [Hn|(Hpc & Hl' & Hn)]; rewrite Hn.
  - intros (t0 & th0 & Hth0 & Hr & Hptr)%Htr.
    destruct (thread_after t0 th0 Hth0) as (th0' & Hth0' & Hb & _ & _ & _ & Hkeep).
    exists t0, th0'. split_and!; [done| |by apply Hkeep].
    unfold roomID. by rewrite Hb.
  - intros [Hl|[Hl Hr]]%lookup_app_Some.
    + apply Htr in Hl as (t0 & th0 & Hth0 & Hr & Hptr).
      destruct (thread_after t0 th0 Hth0) as (th0' & Hth0' & Hb & _ & _ & _ & Hkeep).
      exists t0, th0'. split_and!; [done| |by apply Hkeep].
      unfold roomID. by rewrite Hb.
    + apply list_lookup_singleton_Some in Hr as [Hz <-].
      exists t, (jump th (L69 (length (heap σ)))). split_and!; [|done|].
      * rewrite Hthreads, Hl'. by apply lookup_goto_eq.
      * cbn. f_equal. unfold names in Hl, Hz. rewrite length_fmap in Hl, Hz. lia.
Qed.

End step_preserves.


Ltac step_cases H :=
  destruct H as
    [ Hpc Hbody | req Hpc Hbody Hbad | req Hpc Hbody Hgood
    | Hpc Hfree | l Hpc Hroom | Hpc Hroom | Hpc | l Hpc | l Hpc
    | l o Hpc Ho Hfree | l o Hpc Ho | l o Hpc Ho | l Hpc ].

(** The holder of a room's mutex is still at the write or the unlock
    after a step of [t] that keeps [t] there if it was there. *)
Lemma holder_kept t σ th l' t0 l0 :
  threads σ !! t = Some th →
  (∃ th0, threads σ !! t0 = Some th0 ∧ (pc th0 = L74 l0 ∨ pc th0 = L75 l0)) →
  (pc th = L74 l0 ∨ pc th = L75 l0 → l' = L74 l0 ∨ l' = L75 l0) →
  ∃ th0, goto t l' σ !! t0 = Some th0 ∧ (pc th0 = L74 l0 ∨ pc th0 = L75 l0).
Proof.
  intros Hth (th0 & Hth0 & Hat) Hkeep. destruct (decide (t0 = t)) as [->|Hne].
  - rewrite Hth in Hth0. injection Hth0 as <-.
    exists (jump th l'). split; [by apply lookup_goto_eq|]. by apply Hkeep.
  - exists th0. by rewrite lookup_goto_ne.
Qed.

Lemma critical_kept t σ th l' t0 :
  threads σ !! t = Some th →
  (∃ th0, threads σ !! t0 = Some th0 ∧ inCritical (pc th0) = true) →
  (inCritical (pc th) = true → inCritical l' = true) →
  ∃ th0, goto t l' σ !! t0 = Some th0 ∧ inCritical (pc th0) = true.
Proof.
  intros Hth (th0 & Hth0 & Hat) Hkeep. destruct (decide (t0 = t)) as [->|Hne].
  - rewrite Hth in Hth0. injection Hth0 as <-.
    exists (jump th l'). split; [by apply lookup_goto_eq|]. by apply Hkeep.
  - exists th0. by rewrite lookup_goto_ne.
Qed.

Lemma Step_locks t σ th l' a h :
  threads σ !! t = Some th → Step t σ th l' a h → locks_ok σ →
  locks_ok {| api := a; heap := h; threads := goto t l' σ |}.
Proof.
  intros Hth HStep [Hroomlock Huserlock]. constructor; cbn [api heap threads].
  - intros t0 Ht0. step_cases HStep; cbn [RoomLock] in Ht0;
      try (apply (critical_kept t σ th); [done|by apply Hroomlock|by rewrite Hpc]).
    injection Ht0 as <-. exists (jump th L63). split; [by apply lookup_goto_eq|done].
  - intros l0 o0 t0 Hl0 Hheld. step_cases HStep;
      try (apply (holder_kept t σ th); [done|by eapply Huserlock|rewrite Hpc; by intros [?|?]]).
    + (* allocation *)
      apply lookup_app_Some in Hl0 as [Hl0|[_ Hnew]].
      * apply (holder_kept t σ th); [done|by eapply Huserlock|rewrite Hpc; by intros [?|?]].
      * apply list_lookup_singleton_Some in Hnew as [_ <-]. done.
    + (* room lock *)
      apply list_lookup_insert_Some in Hl0 as [(<- & <- & Hlen)|[Hne Hl0]].
      * cbn in Hheld. injection Hheld as <-.
        exists (jump th (L74 l)). split; [by apply lookup_goto_eq|by left].
      * apply (holder_kept t σ th); [done|by eapply Huserlock|rewrite Hpc; by intros [?|?]].
    + (* write *)
      apply list_lookup_insert_Some in Hl0 as [(<- & <- & Hlen)|[Hne Hl0]].
      * cbn in Hheld.
        apply (holder_kept t σ th); [done|by eapply Huserlock|by right].
      * apply (holder_kept t σ th); [done|by eapply Huserlock|].
        rewrite Hpc. intros [[= ->]|?]; done.
    + (* room unlock *)
      apply list_lookup_insert_Some in Hl0 as [(<- & <- & Hlen)|[Hne Hl0]]; [done|].
      apply (holder_kept t σ th); [done|by eapply Huserlock|].
      rewrite Hpc. intros [?|[= ->]]; done.
Qed.


(** The thread whose write a room holds keeps its request and its
    pointer through a step of [t]. *)
Lemma writer_kept t σ th l' a h t1 th1 l0 :
  threads σ !! t = Some th → Step t σ th l' a h →
  threads σ !! t1 = Some th1 → roomPtr (pc th1) = Some l0 →
  ∃ th1', goto t l' σ !! t1 = Some th1'
          ∧ userID th1' = userID th1 ∧ userOf th1' = userOf th1
          ∧ roomPtr (pc th1') = Some l0.
Proof.
  intros Hth HStep Hth1 Hptr. destruct (decide (t1 = t)) as [->|Hne].
  - rewrite Hth in Hth1. injection Hth1 as <-.
    exists (jump th l'). split_and!; [by apply lookup_goto_eq|done..|].
    by eapply Step_roomPtr.
  - exists th1. by rewrite lookup_goto_ne.
Qed.

Lemma written_kept t σ th l' a h th0 l0 :
  threads σ !! t = Some th → Step t σ th l' a h →
  written σ th0 l0 →
  written {| api := a; heap := h; threads := goto t l' σ |} th0 l0.
Proof.
  intros Hth HStep (o0 & t1 & th1 & Ho0 & Hth1 & Hid & Hptr & Hentry).
  destruct (writer_kept t σ th l' a h t1 th1 l0 Hth HStep Hth1 Hptr)
    as (th1' & Hth1' & Hid' & Huser' & Hptr').
  assert (∀ o', h !! l0 = Some o' → Users o' = Users o0 →
            written {| api := a; heap := h; threads := goto t l' σ |} th0 l0) as Hsame.
  { intros o' Ho' Husers. exists o', t1, th1'. cbn [heap threads].
    split_and!; [done|done|congruence|done|]. rewrite Husers, Huser'. done. }
  step_cases HStep; try (by apply (Hsame o0)).
  - (* allocation *)
    apply (Hsame o0); [|done]. by apply lookup_app_l_Some.
  - (* room lock *)
    destruct (decide (l = l0)) as [->|Hne].
    + rewrite Ho in Ho0. injection Ho0 as <-.
      eapply Hsame; [apply list_lookup_insert_eq; by eapply lookup_lt_Some|done].
    + apply (Hsame o0); [|done]. by rewrite list_lookup_insert_ne.
  - (* write *)
    destruct (decide (l = l0)) as [->|Hne].
    + rewrite Ho in Ho0. injection Ho0 as <-.
      destruct (decide (userID th = userID th0)) as [Heq|Hneq].
      * eexists _, t, (jump th (L75 l0)). cbn [heap threads].
        split_and!; [|by apply lookup_goto_eq|done|done|].
        -- apply list_lookup_insert_eq. by eapply lookup_lt_Some.
        -- cbn [Users]. rewrite <- Heq. apply lookup_insert_eq.
      * eexists _, t1, th1'. cbn [heap threads].
        split_and!; [|done|congruence|done|].
        -- apply list_lookup_insert_eq. by eapply lookup_lt_Some.
        -- cbn [Users]. rewrite lookup_insert_ne by done. by rewrite Huser'.
    + apply (Hsame o0); [|done]. by rewrite list_lookup_insert_ne.
  - (* room unlock *)
    destruct (decide (l = l0)) as [->|Hne].
    + rewrite Ho in Ho0. injection Ho0 as <-.
      eapply Hsame; [apply list_lookup_insert_eq; by eapply lookup_lt_Some|done].
    + apply (Hsame o0); [|done]. by rewrite list_lookup_insert_ne.
Qed.

Lemma thread_done_kept t σ th l' a h th0 :
  threads σ !! t = Some th → Step t σ th l' a h →
  thread_done σ th0 →
  thread_done {| api := a; heap := h; threads := goto t l' σ |} th0.
Proof.
  intros Hth HStep. unfold thread_done.
  destruct (pc th0) as [| | | |?|?|?|?|?|?|[?|] ?]; try done.
  - intros [Hv Hw]. split; [done|]. by eapply written_kept.
  - intros [Hv Hw]. split; [done|]. by eapply written_kept.
  - intros (Hv & Hrep & Hw). split_and!; [done..|]. by eapply written_kept.
Qed.

Lemma Step_done t σ th l' a h :
  threads σ !! t = Some th → Step t σ th l' a h →
  (∀ t0 th0, threads σ !! t0 = Some th0 → thread_done σ th0) →
  ∀ t0 th0, goto t l' σ !! t0 = Some th0 →
    thread_done {| api := a; heap := h; threads := goto t l' σ |} th0.
Proof.
  intros Hth HStep Hall t0 th0 [[-> (th1 & Hth1 & ->)]|[Hne Hth0]]%lookup_goto.
  2: { eapply thread_done_kept; [done..|]. by eapply Hall. }
  rewrite Hth in Hth1. injection Hth1 as <-.
  pose proof (Hall t th Hth) as Hold.
  pose proof (thread_done_kept t σ th l' a h th Hth HStep Hold) as Hkept.
  unfold thread_done in Hold, Hkept |- *. cbn [pc jump].
  step_cases HStep; rewrite Hpc in Hold, Hkept; try done.
  - (* undecoded *)
    split; [|done]. intros [Hu _]. apply Hu.
    unfold userID. cbn [body jump]. by rewrite Hbody.
  - (* rejected *)
    split; [|done]. unfold valid, userID, roomID. cbn [body jump].
    rewrite Hbody. cbn. tauto.
  - (* accepted *)
    unfold valid, userID, roomID. cbn [body jump]. rewrite Hbody. cbn. tauto.
  - (* write *)
    split; [done|]. eexists _, t, (jump th (L75 l)). cbn [heap threads].
    split_and!; [|by apply lookup_goto_eq|done|done|].
    + apply list_lookup_insert_eq. by eapply lookup_lt_Some.
    + cbn [Users]. apply lookup_insert_eq.
  - (* reply *)
    destruct Hkept as [Hv Hw]. done.
Qed.


(** ** Interleaved check-ins: every reachable state *)

Lemma step_Inv t σ σ' : Inv σ → step t σ = Some σ' → Inv σ'.
Proof.
  intros [Hwf Hlocks Htracked Hdone] Hstep.
  destruct (step_Step t σ σ' Hstep) as (th & l' & Hth & HStep & Hthreads).
  constructor.
  - by eapply step_wf.
  - destruct σ' as [a h ths]. cbn in *. subst ths. by eapply Step_locks.
  - by eapply step_tracked.
  - destruct σ' as [a h ths]. cbn in *. subst ths. by eapply Step_done.
Qed.

Lemma init_pc reqs t th : threads (init reqs) !! t = Some th → pc th = L44.
Proof.
  cbn. rewrite list_lookup_fmap. intros (r & _ & ->)%fmap_Some. done.
Qed.

Lemma init_Inv reqs : Inv (init reqs).
Proof.
  constructor; [constructor|constructor| |].
  - apply NoDup_nil_2.
  - intros r l H. cbn in H. by rewrite lookup_empty in H.
  - intros l r H. cbn in H. by rewrite lookup_nil in H.
  - intros t th Hth. unfold thread_ok. by rewrite (init_pc _ _ _ Hth).
  - done.
  - intros l o t H. cbn in H. by rewrite lookup_nil in H.
  - intros l r H. cbn in H. by rewrite lookup_nil in H.
  - intros t th Hth. unfold thread_done. by rewrite (init_pc _ _ _ Hth).
Qed.

Lemma run_cons t sched σ :
  run (t :: sched) σ = run sched (default σ (step t σ)).
Proof. done. Qed.

Lemma run_app sched1 sched2 σ :
  run (sched1 ++ sched2) σ = run sched2 (run sched1 σ).
Proof. apply foldl_app. Qed.

Lemma run_Inv sched σ : Inv σ → Inv (run sched σ).
Proof.
  revert σ. induction sched as [|t sched IH]; intros σ Hinv; [done|].
  rewrite run_cons. apply IH.
  destruct (step t σ) as [σ'|] eqn:Hstep; [|done]. by eapply step_Inv.
Qed.

(** The requests stay with their threads. *)
Lemma goto_requests t l σ :
  (λ th, (body th, now th)) <$> goto t l σ = (λ th, (body th, now th)) <$> threads σ.
Proof.
  unfold goto. apply list_eq. intros i. rewrite !list_lookup_fmap.
  destruct (decide (t = i)) as [->|Hne].
  - rewrite list_lookup_alter_eq. by destruct (threads σ !! i).
  - by rewrite list_lookup_alter_ne.
Qed.

Lemma step_requests t σ σ' :
  step t σ = Some σ' →
  (λ th, (body th, now th)) <$> threads σ' = (λ th, (body th, now th)) <$> threads σ.
Proof.
  intros (th & l' & _ & _ & ->)%step_Step. apply goto_requests.
Qed.

Lemma run_requests sched reqs :
  (λ th, (body th, now th)) <$> threads (run sched (init reqs)) = reqs.
Proof.
  assert (∀ σ, (λ th, (body th, now th)) <$> threads (run sched σ)
               = (λ th, (body th, now th)) <$> threads σ) as Hrun.
  { induction sched as [|t sched IH]; intros σ; [done|].
    rewrite run_cons, IH. destruct (step t σ) as [σ'|] eqn:Hstep; [|done].
    by eapply step_requests. }
  rewrite Hrun. cbn. rewrite <- list_fmap_compose.
  rewrite <- (list_fmap_id reqs) at 2. apply list_fmap_ext. by intros i [??].
Qed.


(** ** Interleaved check-ins: no deadlock, and termination *)

Lemma heap_ptr σ r l :
  wf σ → Rooms (api σ) !! r = Some l → ∃ o, heap σ !! l = Some o ∧ Name o = r.
Proof.
  intros Hwf Hr. apply (wf_registry _ Hwf) in Hr.
  unfold names in Hr. rewrite list_lookup_fmap in Hr.
  apply fmap_Some in Hr as (o & Ho & ->). by exists o.
Qed.

Ltac step_at Hth Hpc :=
  unfold step; rewrite Hth; cbn [mbind option_bind]; rewrite Hpc.

(** While a thread has not returned, some thread can advance. *)
Lemma progress σ t th :
  Inv σ → threads σ !! t = Some th → returned th = false →
  ∃ t' σ', step t' σ = Some σ'.
Proof.
  intros [Hwf [Hroomlock Huserlock] _ _] Hth Hret.
  destruct (RoomLock (api σ)) as [t0|] eqn:Hlock.
  - (* the holder of the registry mutex can advance *)
    destruct (Hroomlock t0 eq_refl) as (th0 & Hth0 & Hc0). exists t0.
    destruct (pc th0) as [| | | |l|l|l|l|l|l|ol rep] eqn:Hpc0; try done;
      step_at Hth0 Hpc0; [|eauto..].
    destruct (Rooms (api σ) !! roomID th0); eauto.
  - destruct (wf_threads _ Hwf t th Hth) as [Hcrit Hpos].
    destruct (pc th) as [| | | |l|l|l|l|l|l|ol rep] eqn:Hpc;
      try (specialize (Hcrit eq_refl); congruence).
    + exists t. step_at Hth Hpc. destruct (body th); [case_decide|]; eauto.
    + exists t. step_at Hth Hpc. rewrite Hlock. eauto.
    + destruct (heap_ptr σ _ _ Hwf Hpos) as (o & Ho & _).
      destruct (UserLock o) as [t1|] eqn:Hul.
      * (* the holder of the room's mutex can advance *)
        destruct (Huserlock l o t1 Ho Hul) as (th1 & Hth1 & [Hpc1|Hpc1]);
          exists t1; step_at Hth1 Hpc1; rewrite Ho; cbn; eauto.
      * exists t. step_at Hth Hpc. rewrite Ho. cbn. rewrite Hul. eauto.
    + destruct (heap_ptr σ _ _ Hwf Hpos) as (o & Ho & _).
      exists t. step_at Hth Hpc. rewrite Ho. cbn. eauto.
    + destruct (heap_ptr σ _ _ Hwf Hpos) as (o & Ho & _).
      exists t. step_at Hth Hpc. rewrite Ho. cbn. eauto.
    + exists t. step_at Hth Hpc. eauto.
    + unfold returned in Hret. by rewrite Hpc in Hret.
Qed.

Lemma sum_list_alter_lt {A} (f : A → nat) (g : A → A) i l x :
  l !! i = Some x → f (g x) < f x →
  sum_list (f <$> alter g i l) < sum_list (f <$> l).
Proof.
  revert i. induction l as [|y l IH]; intros [|i] Hi Hlt; try done.
  - injection Hi as ->. cbn. lia.
  - cbn in *. specialize (IH i Hi Hlt). lia.
Qed.

(** Every statement uses up work. *)
Lemma step_work t σ σ' : step t σ = Some σ' → work σ' < work σ.
Proof.
  intros (th & l' & Hth & HStep & Hthreads)%step_Step.
  unfold work. rewrite Hthreads. unfold goto.
  apply (sum_list_alter_lt (remaining ∘ pc) _ t _ th Hth).
  cbn. by eapply Step_work.
Qed.

(** From every state that satisfies the invariant the threads can be
    scheduled so that all of them return. *)
Lemma completes σ : Inv σ → ∃ sched, allReturned (run sched σ).
Proof.
  remember (work σ) as n eqn:Hn. revert σ Hn.
  induction n as [n IH] using lt_wf_ind. intros σ -> Hinv.
  destruct (decide (allReturned σ)) as [Hall|Hnot].
  - by exists [].
  - unfold allReturned in Hnot. apply not_Forall_Exists in Hnot; [|apply _].
    apply Exists_exists in Hnot as (th & Hin & Hret).
    apply list_elem_of_lookup in Hin as [t Hth].
    destruct (progress σ t th Hinv Hth) as (t' & σ' & Hstep).
    { cbn in Hret. by destruct (returned th). }
    destruct (IH (work σ') (step_work _ _ _ Hstep) σ' eq_refl) as [sched Hsched].
    { by eapply step_Inv. }
    exists (t' :: sched). by rewrite run_cons, Hstep.
Qed.


(** ** Interleaved check-ins: one room per room id *)

(** The local [room] of a thread points to an object of its room id. *)
Lemma ptr_name σ t th l :
  wf σ → threads σ !! t = Some th → roomPtr (pc th) = Some l →
  names σ !! l = Some (roomID th).
Proof.
  intros Hwf Hth Hptr. destruct (wf_threads _ Hwf t th Hth) as [_ Hpos].
  destruct (pc th) as [| | | |?|?|?|?|?|?|[?|] ?]; cbn in Hptr; try done;
    injection Hptr as ->; try (by apply (wf_registry _ Hwf)).
  by destruct Hpos.
Qed.

(** Past line 69 it is the object the registry holds for that id. *)
Lemma ptr_registered σ t th l :
  wf σ → threads σ !! t = Some th → roomPtr (pc th) = Some l → pc th ≠ L69 l →
  Rooms (api σ) !! roomID th = Some l.
Proof.
  intros Hwf Hth Hptr Hne. destruct (wf_threads _ Hwf t th Hth) as [_ Hpos].
  destruct (pc th) as [| | | |?|?|?|?|?|?|[?|] ?]; cbn in Hptr; try done;
    injection Hptr as ->; done.
Qed.

Lemma ptr_valid σ th :
  thread_done σ th → is_Some (roomPtr (pc th)) → valid th.
Proof.
  unfold thread_done. intros Hdone [l Hptr].
  destruct (pc th) as [| | | |?|?|?|?|?|?|[?|] ?]; cbn in Hptr; try done; tauto.
Qed.

Lemma names_lookup σ l o : heap σ !! l = Some o → names σ !! l = Some (Name o).
Proof. intros H. unfold names. by rewrite list_lookup_fmap, H. Qed.

Lemma created_names σ : created σ = length (names σ).
Proof. unfold created, names. by rewrite length_fmap. Qed.

Lemma NoDup_same_length {A} (l : list A) (x : A) :
  NoDup l → (∀ y, y ∈ l → y = x) → length l ≤ 1.
Proof.
  intros Hnd Hall. destruct l as [|y [|z l]]; cbn; [lia..|].
  apply NoDup_cons in Hnd as [Hy _]. destruct Hy.
  rewrite (Hall y), (Hall z); [left|right; left|left].
Qed.

(** C7. Threads that run the check-in handler, one per request, from the
    empty registry, under any schedule, however their statements
    interleave.  At every moment of the run:
    - each thread still carries its own request;
    - no two [Room] objects on the heap have the same room id;
    - the [room] a thread holds is an object of its room id, and once
      the thread is past line 69 it is the object the registry holds
      under that id;
    - two threads with the same room id that hold a [room] hold the same
      object;
    - when the valid requests all name one room id, at most one [Room]
      object has been created, and exactly one as soon as some thread
      holds a [room];
    - the run can be continued so that every thread returns;
    - once every thread has returned, each thread with a valid request
      has replied with the success reply and holds the object that the
      registry holds under its room id, and that object has an entry
      under its user id. *)
Theorem one_room_per_id
    (reqs : list (option CheckInRequest.t * time.Time)) (sched : list tid) :
  let σ := run sched (init reqs) in
  (λ th, (body th, now th)) <$> threads σ = reqs
  ∧ (∀ l1 l2 o1 o2,
       heap σ !! l1 = Some o1 → heap σ !! l2 = Some o2 → Name o1 = Name o2 → l1 = l2)
  ∧ (∀ t th l,
       threads σ !! t = Some th → roomPtr (pc th) = Some l →
       (∃ o, heap σ !! l = Some o ∧ Name o = roomID th)
       ∧ (pc th ≠ L69 l → Rooms (api σ) !! roomID th = Some l))
  ∧ (∀ t1 t2 th1 th2 l1 l2,
       threads σ !! t1 = Some th1 → threads σ !! t2 = Some th2 →
       roomID th1 = roomID th2 →
       roomPtr (pc th1) = Some l1 → roomPtr (pc th2) = Some l2 → l1 = l2)
  ∧ (∀ r,
       (∀ t th, threads σ !! t = Some th → valid th → roomID th = r) →
       created σ ≤ 1
       ∧ ((∃ t th l, threads σ !! t = Some th ∧ roomPtr (pc th) = Some l) →
          created σ = 1))
  ∧ (∃ sched', allReturned (run (sched ++ sched') (init reqs)))
  ∧ (allReturned σ →
     ∀ t th, threads σ !! t = Some th → valid th →
       ∃ l o,
         pc th = Returned (Some l) (CheckedIn (userID th) (roomID th))
         ∧ Rooms (api σ) !! roomID th = Some l
         ∧ heap σ !! l = Some o
         ∧ Name o = roomID th
         ∧ is_Some (Users o !! userID th)).
Proof.
  intros σ.
  pose proof (run_Inv sched (init reqs) (init_Inv reqs)) as Hinv.
  fold σ in Hinv. destruct Hinv as [Hwf Hlocks Htracked Hdone].
  assert (∀ t th l, threads σ !! t = Some th → roomPtr (pc th) = Some l →
            ∃ o, heap σ !! l = Some o ∧ Name o = roomID th) as Hobj.
  { intros t th l Hth Hptr. pose proof (ptr_name σ t th l Hwf Hth Hptr) as Hn.
    unfold names in Hn. rewrite list_lookup_fmap in Hn.
    apply fmap_Some in Hn as (o & Ho & Hname). by exists o. }
  split_and!.
  - apply run_requests.
  - intros l1 l2 o1 o2 H1%names_lookup H2%names_lookup Heq. rewrite Heq in H1.
    eapply NoDup_lookup; [apply (wf_names _ Hwf)|done..].
  - intros t th l Hth Hptr. split; [by eapply Hobj|].
    intros Hne. by eapply ptr_registered.
  - intros t1 t2 th1 th2 l1 l2 Hth1 Hth2 Heq Hp1 Hp2.
    pose proof (ptr_name σ t1 th1 l1 Hwf Hth1 Hp1) as H1.
    pose proof (ptr_name σ t2 th2 l2 Hwf Hth2 Hp2) as H2.
    rewrite Heq in H1. eapply NoDup_lookup; [apply (wf_names _ Hwf)|done..].
  - intros r Hsame. rewrite created_names. split.
    + apply (NoDup_same_length _ r); [apply (wf_names _ Hwf)|].
      intros r' [l Hl]%list_elem_of_lookup.
      destruct (Htracked l r' Hl) as (t & th & Hth & <- & Hptr).
      apply (Hsame t th Hth). eapply ptr_valid; [by eapply Hdone|by eexists].
    + intros (t & th & l & Hth & Hptr).
      pose proof (ptr_name σ t th l Hwf Hth Hptr) as Hn%lookup_lt_Some.
      assert (length (names σ) ≤ 1); [|lia].
      apply (NoDup_same_length _ r); [apply (wf_names _ Hwf)|].
      intros r' [l0 Hl0]%list_elem_of_lookup.
      destruct (Htracked l0 r' Hl0) as (t0 & th0 & Hth0 & <- & Hptr0).
      apply (Hsame t0 th0 Hth0). eapply ptr_valid; [by eapply Hdone|by eexists].
  - destruct (completes σ) as [sched' Hall]; [by constructor|].
    exists sched'. by rewrite run_app.
  - intros Hall t th Hth Hvalid.
    assert (returned th = true) as Hret.
    { unfold allReturned in Hall. rewrite Forall_lookup in Hall. by eapply Hall. }
    pose proof (Hdone t th Hth) as Hd. unfold thread_done in Hd.
    pose proof (ptr_registered σ t th) as Hregd.
    pose proof (ptr_name σ t th) as Hnamed.
    unfold returned in Hret.
    destruct (pc th) as [| | | |?|?|?|?|?|?|[l|] rep] eqn:Hpc; try done.
    + destruct Hd as (_ & -> & (o & tw & thw & Ho & Hthw & Hidw & Hptrw & Hentry)).
      exists l, o. split_and!; [done| |done| |by eexists].
      * by apply Hregd.
      * specialize (Hnamed l Hwf Hth eq_refl).
        apply names_lookup in Ho. congruence.
    + by destruct Hd.
Qed.


Lemma one_room_per_id_witness :
  threads (run interleaved (init two_callers))
  = [mkThread (Some (CheckInRequest.mk "alice" "r1")) 0 (L73 0);
     mkThread (Some (CheckInRequest.mk "bob" "r1")) 1 (L77 0)]
  ∧ created (run interleaved (init two_callers)) = 1.
Proof.
  assert (threads (run interleaved (init two_callers))
          = [mkThread (Some (CheckInRequest.mk "alice" "r1")) 0 (L73 0);
             mkThread (Some (CheckInRequest.mk "bob" "r1")) 1 (L77 0)]) as Hts
    by (vm_compute; reflexivity).
  split; [exact Hts|].
  pose proof (one_room_per_id two_callers interleaved) as H. cbv zeta in H.
  destruct H as (_ & _ & _ & _ & Hone & _).
  specialize (Hone "r1"). rewrite Hts in Hone. destruct Hone as [_ Hone].
  - intros [|[|t]] th Hth _; [| |done].
    + injection Hth as <-. reflexivity.
    + injection Hth as <-. reflexivity.
  - refine (Hone _).
    exists 0, (mkThread (Some (CheckInRequest.mk "alice" "r1")) 0 (L73 0)), 0.
    split; reflexivity.
Defined.

(** ** Interleaved check-ins: the room mutexes and the entries *)

Lemma Step_holds t σ th l' a h :
  threads σ !! t = Some th → Step t σ th l' a h →
  (∀ t0 th0, threads σ !! t0 = Some th0 → holds_lock σ t0 th0) →
  ∀ t0 th0, goto t l' σ !! t0 = Some th0 →
    holds_lock {| api := a; heap := h; threads := goto t l' σ |} t0 th0.
Proof.
  intros Hth HStep Hall t0 th0 [[-> (th1 & Hth1 & ->)]|[Hne Hth0]]%lookup_goto.
  - (* the thread that moved *)
    rewrite Hth in Hth1. injection Hth1 as <-.
    pose proof (Hall t th Hth) as Hold. unfold holds_lock in *. cbn [pc jump heap].
    step_cases HStep; intros l0 [Hat|Hat]; try discriminate Hat; injection Hat as <-.
    + eexists. split; [apply list_lookup_insert_eq; by eapply lookup_lt_Some|done].
    + destruct (Hold l) as (o0 & Ho0 & Hheld); [by left|].
      rewrite Ho in Ho0. injection Ho0 as <-.
      eexists. split; [apply list_lookup_insert_eq; by eapply lookup_lt_Some|done].
  - (* another thread *)
    pose proof (Hall t0 th0 Hth0) as Hold. pose proof (Hall t th Hth) as Hmine.
    unfold holds_lock in *. cbn [heap]. intros l0 Hat.
    destruct (Hold l0 Hat) as (o0 & Ho0 & Hheld).
    step_cases HStep; try (by exists o0).
    + exists o0. split; [|done]. by apply lookup_app_l_Some.
    + destruct (decide (l = l0)) as [->|Hl]; [congruence|].
      exists o0. by rewrite list_lookup_insert_ne.
    + destruct (decide (l = l0)) as [->|Hl].
      * rewrite Ho in Ho0. injection Ho0 as <-.
        eexists. split; [apply list_lookup_insert_eq; by eapply lookup_lt_Some|done].
      * exists o0. by rewrite list_lookup_insert_ne.
    + destruct (decide (l = l0)) as [->|Hl].
      * destruct (Hmine l0) as (o1 & Ho1 & Hheld1); [by right|]. congruence.
      * exists o0. by rewrite list_lookup_insert_ne.
Qed.

Lemma Step_provenance t σ th l' a h :
  Inv σ → threads σ !! t = Some th → Step t σ th l' a h →
  provenance σ → provenance {| api := a; heap := h; threads := goto t l' σ |}.
Proof.
  intros [Hwf _ _ Hdone] Hth HStep Hprov.
  assert (∀ o u e, (∃ l, heap σ !! l = Some o) → Users o !! u = Some e →
            ∃ t0 th0, goto t l' σ !! t0 = Some th0
                      ∧ valid th0 ∧ roomID th0 = Name o ∧ userID th0 = u
                      ∧ e = userOf th0) as Hold.
  { intros o u e [l0 Ho] He. destruct (Hprov l0 o u e Ho He) as (t0 & th0 & Hth0 & Hrest).
    destruct (decide (t0 = t)) as [->|Hne].
    - rewrite Hth in Hth0. injection Hth0 as <-. exists t, (jump th l').
      split; [by apply lookup_goto_eq|done].
    - exists t0, th0. by rewrite lookup_goto_ne. }
  unfold provenance. cbn [heap threads]. intros l0 o0 u e Ho0 He.
  step_cases HStep; try (by apply (Hold o0); [exists l0|]).
  - (* allocation *)
    apply lookup_app_Some in Ho0 as [Ho0|[_ Hnew]]; [by apply (Hold o0); [exists l0|]|].
    apply list_lookup_singleton_Some in Hnew as [_ <-]. cbn in He.
    by rewrite lookup_empty in He.
  - (* room lock *)
    apply list_lookup_insert_Some in Ho0 as [(<- & <- & _)|[_ Ho0]];
      [|by apply (Hold o0); [exists l0|]].
    cbn in He |- *. apply (Hold o); [by exists l|done].
  - (* write *)
    apply list_lookup_insert_Some in Ho0 as [(<- & <- & _)|[_ Ho0]];
      [|by apply (Hold o0); [exists l0|]].
    cbn [Users Name] in He |- *.
    apply lookup_insert_Some in He as [[<- <-]|[_ He]]; [|apply (Hold o); [by exists l|done]].
    exists t, (jump th (L75 l)). split; [by apply lookup_goto_eq|].
    pose proof (Hdone t th Hth) as Hv. unfold thread_done in Hv. rewrite Hpc in Hv.
    assert (names σ !! l = Some (roomID th)) as Hn
      by (eapply ptr_name; [done..|by rewrite Hpc]).
    rewrite (names_lookup _ _ _ Ho) in Hn. injection Hn as Hn.
    split_and!; done.
  - (* room unlock *)
    apply list_lookup_insert_Some in Ho0 as [(<- & <- & _)|[_ Ho0]];
      [|by apply (Hold o0); [exists l0|]].
    cbn in He |- *. apply (Hold o); [by exists l|done].
Qed.

Lemma step_Inv2 t σ σ' : Inv2 σ → step t σ = Some σ' → Inv2 σ'.
Proof.
  intros [Hinv Hholds Hprov] Hstep.
  destruct (step_Step t σ σ' Hstep) as (th & l' & Hth & HStep & Hthreads).
  constructor.
  - by eapply step_Inv.
  - destruct σ' as [a h ths]. cbn in *. subst ths. by eapply Step_holds.
  - destruct σ' as [a h ths]. cbn in *. subst ths. by eapply Step_provenance.
Qed.

Lemma init_Inv2 reqs : Inv2 (init reqs).
Proof.
  constructor.
  - apply init_Inv.
  - intros t th Hth l Hat. rewrite (init_pc _ _ _ Hth) in Hat. by destruct Hat.
  - intros l o u e Ho. cbn in Ho. by rewrite lookup_nil in Ho.
Qed.

Lemma run_Inv2 sched σ : Inv2 σ → Inv2 (run sched σ).
Proof.
  revert σ. induction sched as [|t sched IH]; intros σ Hinv; [done|].
  rewrite run_cons. apply IH.
  destruct (step t σ) as [σ'|] eqn:Hstep; [|done]. by eapply step_Inv2.
Qed.

(** ** Interleaved check-ins: further properties of every run *)

(** X15. In every state of every interleaved run, the registry mutex is
    held by thread [t] exactly when [t] stands between
    [api.RoomLock.Lock()] and [api.RoomLock.Unlock()], and at most one
    thread stands there. *)
Theorem registry_mutual_exclusion
    (reqs : list (option CheckInRequest.t * time.Time)) (sched : list tid) :
  let σ := run sched (init reqs) in
  (∀ t, RoomLock (api σ) = Some t
        ↔ ∃ th, threads σ !! t = Some th ∧ inCritical (pc th) = true)
  ∧ ∀ t1 t2 th1 th2,
      threads σ !! t1 = Some th1 → threads σ !! t2 = Some th2 →
      inCritical (pc th1) = true → inCritical (pc th2) = true → t1 = t2.
Proof.
  intros σ. pose proof (run_Inv sched (init reqs) (init_Inv reqs)) as Hinv.
  fold σ in Hinv. destruct Hinv as [Hwf [Hroomlock _] _ _]. split.
  - intros t. split; [apply Hroomlock|].
    intros (th & Hth & Hc). by apply (wf_threads _ Hwf t th Hth).
  - intros t1 t2 th1 th2 Hth1 Hth2 Hc1 Hc2. by eapply critical_excl.
Qed.

(** X16. In every state of every interleaved run, the mutex of a room is
    held by thread [t] exactly when [t] stands at the write into that
    room's map or at the unlock after it, and at most one thread stands
    there: the writes into one room's map never overlap. *)
Theorem room_mutual_exclusion
    (reqs : list (option CheckInRequest.t * time.Time)) (sched : list tid) :
  let σ := run sched (init reqs) in
  (∀ l o t, heap σ !! l = Some o →
     (UserLock o = Some t
      ↔ ∃ th, threads σ !! t = Some th ∧ (pc th = L74 l ∨ pc th = L75 l)))
  ∧ ∀ l t1 t2 th1 th2,
      threads σ !! t1 = Some th1 → threads σ !! t2 = Some th2 →
      pc th1 = L74 l ∨ pc th1 = L75 l → pc th2 = L74 l ∨ pc th2 = L75 l → t1 = t2.
Proof.
  intros σ. pose proof (run_Inv2 sched (init reqs) (init_Inv2 reqs)) as Hinv.
  fold σ in Hinv. destruct Hinv as [[_ [_ Huserlock] _ _] Hholds _]. split.
  - intros l o t Ho. split; [by apply Huserlock|].
    intros (th & Hth & Hat). destruct (Hholds t th Hth l Hat) as (o' & Ho' & Hheld).
    congruence.
  - intros l t1 t2 th1 th2 Hth1 Hth2 Hat1 Hat2.
    destruct (Hholds t1 th1 Hth1 l Hat1) as (o1 & Ho1 & Hheld1).
    destruct (Hholds t2 th2 Hth2 l Hat2) as (o2 & Ho2 & Hheld2).
    congruence.
Qed.

(** X17. Whenever the registry mutex is free, every [Room] object that
    was created is the one registered under its room id, and the number
    of objects created equals the number of room ids registered: no
    object is lost or left unregistered. *)
Theorem no_room_object_is_orphaned
    (reqs : list (option CheckInRequest.t * time.Time)) (sched : list tid) :
  let σ := run sched (init reqs) in
  RoomLock (api σ) = None →
  (∀ l o, heap σ !! l = Some o → Rooms (api σ) !! Name o = Some l)
  ∧ created σ = size (Rooms (api σ)).
Proof.
  intros σ Hfree. pose proof (run_Inv sched (init reqs) (init_Inv reqs)) as Hinv.
  fold σ in Hinv. destruct Hinv as [Hwf _ _ _].
  assert (∀ l r, names σ !! l = Some r → Rooms (api σ) !! r = Some l) as Hreg.
  { intros l r Hl. destruct (wf_owned _ Hwf l r Hl) as [?|(t & th & Hth & Hpc & _)]; [done|].
    destruct (wf_threads _ Hwf t th Hth) as [Hc _]. rewrite Hpc in Hc.
    specialize (Hc eq_refl). congruence. }
  split.
  - intros l o Ho. by apply Hreg, names_lookup.
  - rewrite created_names, <- length_map_to_list.
    rewrite <- (length_fmap fst (map_to_list _)).
    apply Permutation_length, NoDup_Permutation;
      [apply (wf_names _ Hwf)|apply NoDup_fst_map_to_list|].
    intros r. rewrite elem_of_keys, list_elem_of_lookup. split.
    + intros [l Hl]. exists l. by apply Hreg.
    + intros [l Hl]. exists l. by apply (wf_registry _ Hwf).
Qed.

Lemma no_room_object_is_orphaned_witness :
  created (run interleaved (init two_callers))
  = size (Rooms (api (run interleaved (init two_callers)))).
Proof.
  apply (no_room_object_is_orphaned two_callers interleaved).
  vm_compute. reflexivity.
Defined.

(** The request of a thread of a run. *)
Lemma thread_request reqs sched t th :
  threads (run sched (init reqs)) !! t = Some th → reqs !! t = Some (body th, now th).
Proof.
  intros Hth. rewrite <- (run_requests sched reqs) at 1.
  by rewrite list_lookup_fmap, Hth.
Qed.

Lemma request_thread reqs sched t rq :
  reqs !! t = Some rq →
  ∃ th, threads (run sched (init reqs)) !! t = Some th ∧ rq = (body th, now th).
Proof.
  intros Hrq. rewrite <- (run_requests sched reqs) in Hrq at 1.
  rewrite list_lookup_fmap in Hrq. apply fmap_Some in Hrq as (th & Hth & ->).
  by exists th.
Qed.

(** What a request that passes validation writes. *)
Lemma entryFor_userOf th r u :
  valid th → roomID th = r → userID th = u →
  entryFor r u (body th, now th) = Some (userOf th).
Proof.
  unfold valid, entryFor, userOf, roomID, userID. cbn [fst snd].
  destruct (body th) as [req|]; cbn; [|by intros [? _]].
  intros [Hu Hr] <- <-. rewrite decide_True; [done|]. by split_and!.
Qed.

Lemma entryFor_Some th r u e :
  entryFor r u (body th, now th) = Some e →
  valid th ∧ roomID th = r ∧ userID th = u ∧ e = userOf th.
Proof.
  unfold valid, entryFor, userOf, roomID, userID. cbn [fst snd].
  destruct (body th) as [req|]; cbn; [|done].
  case_decide as Hok; [|done]. intros [= <-].
  destruct Hok as (? & ? & <- & <-). done.
Qed.

Lemma entryOf_Some σ r u e :
  entryOf σ r u = Some e
  ↔ ∃ l o, Rooms (api σ) !! r = Some l ∧ heap σ !! l = Some o ∧ Users o !! u = Some e.
Proof.
  unfold entryOf. split.
  - intros (l & Hl & (o & Ho & He)%bind_Some)%bind_Some. by exists l, o.
  - intros (l & o & Hl & Ho & He). rewrite Hl. cbn. rewrite Ho. done.
Qed.

(** An entry of a run is the entry of one of the requests. *)
Lemma entry_requested reqs sched r u e :
  entryOf (run sched (init reqs)) r u = Some e → e ∈ omap (entryFor r u) reqs.
Proof.
  intros (l & o & Hl & Ho & He)%entryOf_Some. apply list_elem_of_omap.
  pose proof (run_Inv2 sched (init reqs) (init_Inv2 reqs)) as [[Hwf _ _ _] _ Hprov].
  destruct (Hprov l o u e Ho He) as (t & th & Hth & Hvalid & Hroom & Huser & ->).
  exists (body th, now th). split.
  - apply list_elem_of_lookup. exists t. by eapply thread_request.
  - apply entryFor_userOf; [done| |done].
    apply (wf_registry _ Hwf) in Hl. rewrite (names_lookup _ _ _ Ho) in Hl. congruence.
Qed.

(** X18. In every state of every interleaved run, an entry found under
    user [u] in the room registered under [r] was written for one of the
    requests: a request that passed validation, names room [r] and user
    [u], and whose clock reading plus five minutes is the entry's
    [ExpiresAt]. *)
Theorem entries_come_from_requests
    (reqs : list (option CheckInRequest.t * time.Time)) (sched : list tid)
    (r u : string) (e : User) :
  entryOf (run sched (init reqs)) r u = Some e →
  ∃ rq, rq ∈ reqs ∧ entryFor r u rq = Some e.
Proof.
  intros He. apply list_elem_of_omap. by eapply entry_requested.
Qed.

Lemma entries_come_from_requests_witness :
  ∃ rq, rq ∈ two_callers
        ∧ entryFor "r1" "bob" rq = Some {| ID := "bob"; ExpiresAt := 300000000001 |}.
Proof.
  apply (entries_come_from_requests two_callers interleaved).
  vm_compute. reflexivity.
Defined.

(** ** Interleaved check-ins: every complete run *)

Lemma roomFor_thread th r :
  roomFor (body th, now th) = Some r ↔ valid th ∧ roomID th = r.
Proof.
  unfold roomFor, roomCheckedIn, valid, roomID, userID. cbn [fst snd].
  destruct (body th) as [req|]; cbn.
  - case_decide as Hbad; split.
    + done.
    + intros [[Hu Hr] _]. tauto.
    + intros [= <-]. split; [|done]. tauto.
    + by intros [_ <-].
  - split; [done|]. by intros [[? _] _].
Qed.

(** A room of the registry was asked for by a valid request. *)
Lemma registered_room_requested σ r :
  Inv σ → is_Some (Rooms (api σ) !! r) →
  ∃ t th, threads σ !! t = Some th ∧ valid th ∧ roomID th = r.
Proof.
  intros [Hwf _ Htracked Hdone] [l Hl]. apply (wf_registry _ Hwf) in Hl.
  destruct (Htracked l r Hl) as (t & th & Hth & Hr & Hptr).
  exists t, th. split_and!; [done| |done].
  eapply ptr_valid; [by eapply Hdone|by eexists].
Qed.

(** Once every thread has returned, each valid request has its room
    registered and an entry in it. *)
Lemma returned_entry σ t th :
  Inv σ → allReturned σ → threads σ !! t = Some th → valid th →
  is_Some (Rooms (api σ) !! roomID th)
  ∧ is_Some (entryOf σ (roomID th) (userID th)).
Proof.
  intros [Hwf _ _ Hdone] Hall Hth Hvalid.
  assert (returned th = true) as Hret.
  { unfold allReturned in Hall. rewrite Forall_lookup in Hall. by eapply Hall. }
  pose proof (Hdone t th Hth) as Hd. unfold thread_done in Hd.
  pose proof (ptr_registered σ t th) as Hregd. unfold returned in Hret.
  destruct (pc th) as [| | | |?|?|?|?|?|?|[l|] rep] eqn:Hpc; try done.
  - destruct Hd as (_ & _ & (o & tw & thw & Ho & _ & _ & _ & Hentry)).
    assert (Rooms (api σ) !! roomID th = Some l) as Hl by (by apply Hregd).
    split; [by eexists|].
    exists (userOf thw). apply entryOf_Some. by exists l, o.
  - by destruct Hd.
Qed.

(** In a complete run every valid request has left an entry. *)
Lemma request_entered reqs sched r u rq :
  allReturned (run sched (init reqs)) →
  rq ∈ reqs → is_Some (entryFor r u rq) →
  is_Some (entryOf (run sched (init reqs)) r u).
Proof.
  intros Hall [t Hrq]%list_elem_of_lookup [e He].
  destruct (request_thread reqs sched t rq Hrq) as (th & Hth & ->).
  apply entryFor_Some in He as (Hvalid & <- & <- & _).
  eapply returned_entry; [|done..]. apply run_Inv, init_Inv.
Qed.

(** X19. When every thread of an interleaved run has returned, user [u]
    has an entry in room [r] exactly when some request that passed
    validation is for [u] in [r]; and when all such requests would write
    the same entry, that entry is the one found, whatever the
    interleaving was. *)
Theorem complete_run_entries
    (reqs : list (option CheckInRequest.t * time.Time)) (sched : list tid)
    (r u : string) :
  let σ := run sched (init reqs) in
  allReturned σ →
  (is_Some (entryOf σ r u) ↔ ∃ rq, rq ∈ reqs ∧ is_Some (entryFor r u rq))
  ∧ ∀ e,
      e ∈ omap (entryFor r u) reqs →
      (∀ e', e' ∈ omap (entryFor r u) reqs → e' = e) →
      entryOf σ r u = Some e.
Proof.
  intros σ Hall. subst σ. split.
  - split.
    + intros [e (rq & Hrq & He)%entry_requested%list_elem_of_omap].
      exists rq. split; [done|by eexists].
    + intros (rq & Hrq & He). by eapply request_entered.
  - intros e (rq & Hrq & He)%list_elem_of_omap Hagree.
    destruct (request_entered reqs sched r u rq Hall Hrq) as [e0 He0]; [by eexists|].
    rewrite He0. f_equal. by eapply Hagree, entry_requested.
Qed.

Lemma complete_run_entries_witness :
  entryOf (run (interleaved ++ [0; 0; 0; 0; 1]) (init two_callers)) "r1" "bob"
  = Some {| ID := "bob"; ExpiresAt := 300000000001 |}.
Proof.
  pose proof (complete_run_entries two_callers (interleaved ++ [0; 0; 0; 0; 1]) "r1" "bob")
    as H. cbv zeta in H. destruct H as [_ H].
  - vm_compute. repeat constructor.
  - apply H.
    + vm_compute. left.
    + intros e' He'. vm_compute in He'. apply list_elem_of_singleton in He'. exact He'.
Defined.

(** X20. A room id is registered in a state of an interleaved run only
    if some request that passed validation names it; once every thread
    has returned, the registered room ids are exactly those. *)
Theorem registered_rooms_are_requested
    (reqs : list (option CheckInRequest.t * time.Time)) (sched : list tid)
    (r : string) :
  let σ := run sched (init reqs) in
  (is_Some (Rooms (api σ) !! r) → ∃ rq, rq ∈ reqs ∧ roomFor rq = Some r)
  ∧ (allReturned σ →
     (∃ rq, rq ∈ reqs ∧ roomFor rq = Some r) → is_Some (Rooms (api σ) !! r)).
Proof.
  intros σ. pose proof (run_Inv sched (init reqs) (init_Inv reqs)) as Hinv.
  fold σ in Hinv. split.
  - intros Hr. destruct (registered_room_requested σ r Hinv Hr) as (t & th & Hth & Hv & Hid).
    exists (body th, now th). split.
    + apply list_elem_of_lookup. exists t. by eapply thread_request.
    + by apply roomFor_thread.
  - intros Hall (rq & [t Hrq]%list_elem_of_lookup & Hfor).
    destruct (request_thread reqs sched t rq Hrq) as (th & Hth & ->).
    apply roomFor_thread in Hfor as [Hvalid <-].
    by eapply returned_entry.
Qed.

Lemma roomName_flatten σ r :
  wf σ →
  roomName (flatten σ) r = if Rooms (api σ) !! r is Some _ then Some r else None.
Proof.
  intros Hwf. unfold roomName, flatten, asRegistry. cbn. rewrite lookup_omap.
  destruct (Rooms (api σ) !! r) as [l|] eqn:Hl; [|done]. cbn.
  destruct (heap_ptr σ r l Hwf Hl) as (o & Ho & Hname). rewrite Ho. cbn.
  by rewrite Hname.
Qed.

Lemma lookupEntry_flatten σ r u : lookupEntry (flatten σ) r u = entryOf σ r u.
Proof.
  unfold lookupEntry, entryOf, flatten, asRegistry. cbn. rewrite lookup_omap.
  destruct (Rooms (api σ) !! r) as [l|]; [|done]. cbn.
  by destruct (heap σ !! l).
Qed.

(** X21. When, for each room and user, the requests that pass validation
    would all write the same entry (as when no two requests are for the
    same user in the same room), every interleaved run in which all
    threads have returned leaves the registry that serving the requests
    one after the other leaves. *)
Theorem complete_run_is_sequential
    (reqs : list (option CheckInRequest.t * time.Time)) (sched : list tid) :
  let σ := run sched (init reqs) in
  allReturned σ →
  (∀ r u e e',
     e ∈ omap (entryFor r u) reqs → e' ∈ omap (entryFor r u) reqs → e' = e) →
  flatten σ = sequentially reqs.
Proof.
  intros σ Hall Hagree.
  pose proof (run_Inv sched (init reqs) (init_Inv reqs)) as Hinv. fold σ in Hinv.
  pose proof (registered_room_requested σ) as Hfrom.
  pose proof (run_Inv2 sched (init reqs) (init_Inv2 reqs)) as Hinv2.
  fold σ in Hinv2. destruct Hinv2 as [_ _ Hprov].
  apply registry_ext.
  - intros r. rewrite roomName_flatten by (by destruct Hinv).
    rewrite roomName_sequentially.
    destruct (Rooms (api σ) !! r) as [l|] eqn:Hl.
    + rewrite decide_True; [done|]. apply elem_of_roomsCheckedIn.
      destruct (Hfrom r Hinv) as (t & th & Hth & Hv & Hid); [by rewrite Hl|].
      exists (body th, now th). split.
      * apply list_elem_of_lookup. exists t. by eapply thread_request.
      * by apply roomFor_thread.
    + rewrite decide_False; [done|].
      intros (rq & [t Hrq]%list_elem_of_lookup & Hfor)%elem_of_roomsCheckedIn.
      destruct (request_thread reqs sched t rq Hrq) as (th & Hth & ->).
      apply roomFor_thread in Hfor as [Hvalid <-].
      destruct (returned_entry σ t th Hinv Hall Hth Hvalid) as [[l' Hl'] _].
      fold σ in Hth. congruence.
  - intros r u. rewrite lookupEntry_flatten. unfold sequentially.
    rewrite lookupEntry_checkIns, lookupEntry_api.
    destruct (last (omap (entryFor r u) reqs)) as [e|] eqn:Hlast.
    + assert (e ∈ omap (entryFor r u) reqs) as He.
      { apply last_Some in Hlast as [l' ->]. apply elem_of_app. right. left. }
      pose proof He as (rq & Hrq & Hfor)%list_elem_of_omap.
      destruct (request_entered reqs sched r u rq Hall Hrq) as [e0 He0]; [by eexists|].
      fold σ in He0. rewrite He0. f_equal.
      eapply Hagree; [done|]. by eapply entry_requested.
    + apply last_None in Hlast.
      destruct (entryOf σ r u) as [e|] eqn:He; [|done].
      apply entry_requested in He. rewrite Hlast in He. by apply elem_of_nil in He.
Qed.

Lemma complete_run_is_sequential_witness :
  flatten (run (interleaved ++ [0; 0; 0; 0; 1]) (init two_callers))
  = sequentially two_callers.
Proof.
  apply (complete_run_is_sequential two_callers (interleaved ++ [0; 0; 0; 0; 1])).
  - vm_compute. repeat constructor.
  - intros r u e e' He He'. unfold two_callers, entryFor in He, He'.
    cbn [omap list_omap fst snd CheckInRequest.UserID CheckInRequest.RoomID] in He, He'.
    repeat case_decide; set_solver.
Defined.

(** ** Interleaved check-ins: mutexes at rest, and handlers run alone *)

(** X22. Once every check-in handler has returned, no mutex is held:
    the registry mutex is free and so is the mutex of every room. *)
Theorem locks_released_at_completion
    (reqs : list (option CheckInRequest.t * time.Time)) (sched : list tid) :
  let σ := run sched (init reqs) in
  allReturned σ →
  RoomLock (api σ) = None ∧ ∀ l o, heap σ !! l = Some o → UserLock o = None.
Proof.
  intros σ Hall. pose proof (run_Inv sched (init reqs) (init_Inv reqs)) as Hinv.
  fold σ in Hinv. destruct Hinv as [_ [Hroomlock Huserlock] _ _].
  assert (∀ t th, threads σ !! t = Some th → ∃ ol rep, pc th = Returned ol rep) as Hret.
  { intros t th Hth. unfold allReturned in Hall. rewrite Forall_lookup in Hall.
    specialize (Hall t th Hth). unfold returned in Hall.
    destruct (pc th); try done. by eexists _, _. }
  split.
  - destruct (RoomLock (api σ)) as [t|] eqn:Hlock; [|done].
    destruct (Hroomlock t eq_refl) as (th & Hth & Hc).
    destruct (Hret t th Hth) as (ol & rep & Hpc). by rewrite Hpc in Hc.
  - intros l o Ho. destruct (UserLock o) as [t|] eqn:Hlock; [|done].
    destruct (Huserlock l o t Ho Hlock) as (th & Hth & Hat).
    destruct (Hret t th Hth) as (ol & rep & Hpc). rewrite Hpc in Hat. by destruct Hat.
Qed.

Lemma locks_released_at_completion_witness :
  RoomLock (api (run (interleaved ++ [0; 0; 0; 0; 1]) (init two_callers))) = None.
Proof.
  pose proof (locks_released_at_completion two_callers (interleaved ++ [0; 0; 0; 0; 1]))
    as H. cbv zeta in H. destruct H as [H _].
  - vm_compute. repeat constructor.
  - exact H.
Defined.

(** A thread whose turn comes while all others are idle is not blocked. *)
Lemma solo_step σ t th :
  Inv σ → othersIdle t σ → threads σ !! t = Some th → returned th = false →
  ∃ σ', step t σ = Some σ'.
Proof.
  intros [Hwf [Hroomlock Huserlock] _ _] Hidle Hth Hret.
  assert (∀ t0 th0, threads σ !! t0 = Some th0 →
            inCritical (pc th0) = true ∨ (∃ l, pc th0 = L74 l ∨ pc th0 = L75 l) →
            t0 = t) as Hme.
  { intros t0 th0 Hth0 Hat. destruct (decide (t0 = t)) as [|Hne]; [done|].
    destruct (Hidle t0 th0 Hne Hth0) as [Hpc|Hr].
    - rewrite Hpc in Hat. by destruct Hat as [?|[l [?|?]]].
    - unfold returned in Hr. destruct (pc th0); try done.
      by destruct Hat as [?|[l [?|?]]]. }
  destruct (wf_threads _ Hwf t th Hth) as [Hcrit Hpos].
  destruct (pc th) as [| | | |l|l|l|l|l|l|ol rep] eqn:Hpc.
  - step_at Hth Hpc. destruct (body th); [case_decide|]; eauto.
  - step_at Hth Hpc. destruct (RoomLock (api σ)) as [t0|] eqn:Hlock; [|eauto].
    destruct (Hroomlock t0 eq_refl) as (th0 & Hth0 & Hc0).
    assert (t0 = t) as -> by (eapply Hme; [done|by left]).
    rewrite Hth in Hth0. injection Hth0 as <-. by rewrite Hpc in Hc0.
  - step_at Hth Hpc. destruct (Rooms (api σ) !! roomID th); eauto.
  - step_at Hth Hpc. eauto.
  - step_at Hth Hpc. eauto.
  - step_at Hth Hpc. eauto.
  - destruct (heap_ptr σ _ _ Hwf Hpos) as (o & Ho & _).
    step_at Hth Hpc. rewrite Ho. cbn.
    destruct (UserLock o) as [t1|] eqn:Hul; [|eauto].
    destruct (Huserlock l o t1 Ho Hul) as (th1 & Hth1 & Hat1).
    assert (t1 = t) as -> by (eapply Hme; [done|right; by exists l]).
    rewrite Hth in Hth1. injection Hth1 as <-. rewrite Hpc in Hat1. by destruct Hat1.
  - destruct (heap_ptr σ _ _ Hwf Hpos) as (o & Ho & _).
    step_at Hth Hpc. rewrite Ho. cbn. eauto.
  - destruct (heap_ptr σ _ _ Hwf Hpos) as (o & Ho & _).
    step_at Hth Hpc. rewrite Ho. cbn. eauto.
  - step_at Hth Hpc. eauto.
  - unfold returned in Hret. by rewrite Hpc in Hret.
Qed.

Lemma remaining_0 th : remaining (pc th) = 0 → returned th = true.
Proof. unfold returned. by destruct (pc th). Qed.

Lemma step_returned t σ th :
  threads σ !! t = Some th → returned th = true → step t σ = None.
Proof.
  intros Hth Hret. unfold step, returned in *. rewrite Hth. cbn.
  by destruct (pc th).
Qed.

(** A thread given [n] turns in a row while the others are idle returns,
    if [n] covers the statements it has left; the others stay as they
    are. *)
Lemma solo_run n σ t th :
  Inv σ → othersIdle t σ → threads σ !! t = Some th → remaining (pc th) ≤ n →
  let σ' := run (replicate n t) σ in
  Inv σ'
  ∧ (∃ th', threads σ' !! t = Some th' ∧ returned th' = true)
  ∧ ∀ t', t' ≠ t → threads σ' !! t' = threads σ !! t'.
Proof.
  revert σ th. induction n as [|n IH]; intros σ th Hinv Hidle Hth Hrem; cbn zeta.
  - split_and!; [done| |done]. exists th. split; [done|]. apply remaining_0. lia.
  - cbn [replicate]. rewrite run_cons.
    destruct (returned th) eqn:Hret.
    + rewrite (step_returned t σ th Hth Hret). cbn [default].
      apply (IH σ th); [done..|].
      unfold returned in Hret. destruct (pc th); try done. cbn. lia.
    + destruct (solo_step σ t th Hinv Hidle Hth Hret) as [σ1 Hstep].
      rewrite Hstep. cbn [default].
      destruct (step_Step t σ σ1 Hstep) as (th0 & l' & Hth0 & HStep & Hthreads).
      rewrite Hth in Hth0. injection Hth0 as <-.
      assert (∀ t', t' ≠ t → threads σ1 !! t' = threads σ !! t') as Hothers.
      { intros t' Hne. rewrite Hthreads. by apply lookup_goto_ne. }
      destruct (IH σ1 (jump th l')) as (Hinv' & Hret' & Hothers').
      * by eapply step_Inv.
      * intros t' th' Hne Hth'. rewrite Hothers in Hth' by done. by eapply Hidle.
      * rewrite Hthreads. by apply lookup_goto_eq.
      * cbn. pose proof (Step_work _ _ _ _ _ _ HStep). lia.
      * split_and!; [done..|]. intros t' Hne. rewrite Hothers' by done. by apply Hothers.
Qed.

Lemma oneByOne_S n : oneByOne (S n) = oneByOne n ++ replicate 10 n.
Proof.
  unfold oneByOne. rewrite seq_S, bind_app. cbn. done.
Qed.

(** After the first [n] threads have had their ten turns each, they have
    returned and the others have not started. *)
Lemma oneByOne_prefix reqs n :
  n ≤ length reqs →
  let σ := run (oneByOne n) (init reqs) in
  ∀ t th, threads σ !! t = Some th →
    (t < n → returned th = true) ∧ (n ≤ t → pc th = L44).
Proof.
  induction n as [|n IH]; intros Hn; cbn zeta.
  - intros t th Hth. split; [lia|]. intros _. exact (init_pc reqs t th Hth).
  - rewrite oneByOne_S, run_app.
    specialize (IH ltac:(lia)). cbn zeta in IH.
    set (σ := run (oneByOne n) (init reqs)) in *.
    assert (Inv σ) as Hinv by apply run_Inv, init_Inv.
    assert (∃ thn, threads σ !! n = Some thn) as [thn Hthn].
    { apply lookup_lt_is_Some.
      rewrite <- (length_fmap (λ th, (body th, now th))).
      unfold σ. rewrite run_requests. lia. }
    destruct (solo_run 10 σ n thn Hinv) as (_ & (thn' & Hthn' & Hret) & Hothers).
    + intros t' th' Hne Hth'. destruct (IH t' th' Hth') as [Hlt Hge].
      destruct (decide (t' < n)); [right; by apply Hlt|left; apply Hge; lia].
    + done.
    + destruct (IH n thn Hthn) as [_ Hpc]. rewrite Hpc by lia. cbn. lia.
    + intros t th Hth. destruct (decide (t = n)) as [->|Hne].
      * rewrite Hthn' in Hth. injection Hth as <-. split; [done|lia].
      * rewrite Hothers in Hth by done. destruct (IH t th Hth) as [Hlt Hge].
        split; [intros ?; apply Hlt; lia|intros ?; apply Hge; lia].
Qed.

(** X23. Running the check-in handlers one after the other, each for ten
    turns, makes every handler return: a handler that runs while the
    others are idle is never blocked on a mutex and needs at most ten
    statements. *)
Theorem one_by_one_completes (reqs : list (option CheckInRequest.t * time.Time)) :
  allReturned (run (oneByOne (length reqs)) (init reqs)).
Proof.
  pose proof (oneByOne_prefix reqs (length reqs) ltac:(lia)) as H. cbn zeta in H.
  unfold allReturned. apply Forall_lookup. intros t th Hth.
  apply (H t th Hth). apply lookup_lt_Some in Hth.
  rewrite <- (length_fmap (λ th, (body th, now th))) in Hth.
  by rewrite run_requests in Hth.
Qed.

End ConcFacts.
